(** * Fleet management: lane arbitration and the robot state machine

    A shallow embedding of [controllers/traffic_manager.py],
    [models/nav_graph.py], [models/robot.py] and
    [controllers/fleet_manager.py].

    Conventions of the embedding:
    - Python [float]s (timestamps, battery, progress, delta time) are
      rationals [Q]; only their order and exact small sums are used.
    - [time.time()] is an explicit argument [now] of every function that
      reads the clock; the reads made inside one call see the same instant.
    - dictionaries keyed by lanes are [gmap]s; a lane is a pair of vertex
      ids.
    - a Python exception is the [Raise] outcome of [result]; a function that
      mutates its object before raising returns the mutated object next to
      the outcome. *)

From Stdlib Require Import ZArith QArith Lqa.
From stdpp Require Import gmap list strings.

Local Open Scope Z_scope.

(** ** Floats as rationals *)

Definition Qltb (x y : Q) : bool := negb (Qle_bool y x).

(** ** Exceptions *)

Inductive exn :=
| AttributeError (attr : string)
| KeyError
| NodeNotFound
| NetworkXNoPath.

Inductive result (A : Type) :=
| Ok (a : A)
| Raise (e : exn).
Arguments Ok {A} a.
Arguments Raise {A} e.

(** ** Lanes

    A lane is the tuple [(from, to)]; its reverse is [(lane[1], lane[0])]. *)

Definition Lane : Type := Z * Z.

Definition reverse (lane : Lane) : Lane := (lane.2, lane.1).

(** ** controllers/traffic_manager.py *)

Module TrafficManager.

Inductive LaneEvent := GRANTED | RELEASED | QUEUED | TIMEOUT | BLOCKED.

Record LogEntry := mkLogEntry {
  le_timestamp : Q;
  le_event : LaneEvent;
  le_robot_id : Z;
  le_lane : Lane
}.

(** [event_log] is an attribute created by the first [_log_event]:
    [None] is the object without the attribute. *)
Record t := mkTrafficManager {
  occupied_lanes : gmap Lane Z;
  waiting_queues : gmap Lane (list Z);
  occupation_timestamps : gmap Lane Q;
  last_deadlock_check : Q;
  event_log : option (list LogEntry)
}.

(** [TrafficManager.__init__] *)
Definition init (now : Q) : t :=
  {| occupied_lanes := ∅;
     waiting_queues := ∅;
     occupation_timestamps := ∅;
     last_deadlock_check := now;
     event_log := None |}.

(** [lane in self.occupied_lanes] *)
Definition reserved (tm : t) (lane : Lane) : bool :=
  bool_decide (is_Some (occupied_lanes tm !! lane)).

(** [self.waiting_queues[lane]] where the key is present, [[]] otherwise *)
Definition queue (tm : t) (lane : Lane) : list Z :=
  default [] (waiting_queues tm !! lane).

Definition is_lane_available (tm : t) (lane : Lane) : bool :=
  negb (reserved tm lane) && negb (reserved tm (reverse lane)).

Definition is_lane_occupied (tm : t) (lane : Lane) : bool :=
  reserved tm lane.

Definition _log_event (tm : t) (event_type : LaneEvent)
    (robot_id : Z) (lane : Lane) (now : Q) : t :=
  let log_entry := mkLogEntry now event_type robot_id lane in
  {| occupied_lanes := occupied_lanes tm;
     waiting_queues := waiting_queues tm;
     occupation_timestamps := occupation_timestamps tm;
     last_deadlock_check := last_deadlock_check tm;
     event_log := Some (default [] (event_log tm) ++ [log_entry]) |}.

(** [detect_collisions(lane)]: with a lane, the pair of the lane and its
    reverse when the reverse is reserved; without, every reserved lane whose
    reverse is reserved too. *)
Definition detect_collisions (tm : t) (lane : option Lane)
    : list (Lane * Lane) :=
  match lane with
  | Some lane =>
      if reserved tm (reverse lane) then [(lane, reverse lane)] else []
  | None =>
      (λ l, (l, reverse l)) <$>
        filter (λ l, reserved tm (reverse l) = true)
               (elements (dom (occupied_lanes tm)))
  end.

(** the denied branch of [request_lane]: create the queue if missing,
    append the robot if absent *)
Definition enqueue (queues : gmap Lane (list Z)) (robot_id : Z) (lane : Lane)
    : gmap Lane (list Z) :=
  let queues1 :=
    match queues !! lane with
    | None => <[lane := []]> queues
    | Some _ => queues
    end in
  let q := default [] (queues1 !! lane) in
  if bool_decide (robot_id ∈ q) then queues1
  else <[lane := q ++ [robot_id]]> queues1.

Definition request_lane (tm : t) (robot_id : Z) (lane : Lane)
    (now : Q) : t * bool :=
  let current_time := now in
  match detect_collisions tm (Some lane) with
  | _ :: _ => (_log_event tm BLOCKED robot_id lane now, false)
  | [] =>
      if negb (reserved tm lane) && negb (reserved tm (reverse lane)) then
        ({| occupied_lanes := <[lane := robot_id]> (occupied_lanes tm);
            waiting_queues := waiting_queues tm;
            occupation_timestamps :=
              <[lane := current_time]> (occupation_timestamps tm);
            last_deadlock_check := last_deadlock_check tm;
            event_log := event_log tm |}, true)
      else
        ({| occupied_lanes := occupied_lanes tm;
            waiting_queues := enqueue (waiting_queues tm) robot_id lane;
            occupation_timestamps := occupation_timestamps tm;
            last_deadlock_check := last_deadlock_check tm;
            event_log := event_log tm |}, false)
  end.

(** [release_lane]: the reservation and its timestamp go if the lane is
    reserved; the head of the lane's queue is popped whenever the queue is
    not empty (the second [if] is not nested in the first). *)
Definition release_lane (tm : t) (lane : Lane) : t :=
  let '(occ, ts) :=
    if reserved tm lane
    then (delete lane (occupied_lanes tm), delete lane (occupation_timestamps tm))
    else (occupied_lanes tm, occupation_timestamps tm) in
  let queues :=
    match waiting_queues tm !! lane with
    | Some (next_robot :: rest) => <[lane := rest]> (waiting_queues tm)
    | _ => waiting_queues tm
    end in
  {| occupied_lanes := occ;
     waiting_queues := queues;
     occupation_timestamps := ts;
     last_deadlock_check := last_deadlock_check tm;
     event_log := event_log tm |}.

(** [queue.remove(robot_id)]: the first occurrence goes *)
Fixpoint list_remove (robot_id : Z) (q : list Z) : list Z :=
  match q with
  | [] => []
  | x :: q' => if bool_decide (x = robot_id) then q' else x :: list_remove robot_id q'
  end.

(** [_remove_from_other_queues]: every queue that holds the robot loses
    its first occurrence *)
Definition _remove_from_other_queues (tm : t) (robot_id : Z) : t :=
  {| occupied_lanes := occupied_lanes tm;
     waiting_queues := list_remove robot_id <$> waiting_queues tm;
     occupation_timestamps := occupation_timestamps tm;
     last_deadlock_check := last_deadlock_check tm;
     event_log := event_log tm |}.

(** [_grant_access]: no method calls it; [request_lane] writes the
    reservation and the timestamp itself *)
Definition _grant_access (tm : t) (robot_id : Z) (lane : Lane) (now : Q) : t :=
  _remove_from_other_queues
    {| occupied_lanes := <[lane := robot_id]> (occupied_lanes tm);
       waiting_queues := waiting_queues tm;
       occupation_timestamps := <[lane := now]> (occupation_timestamps tm);
       last_deadlock_check := last_deadlock_check tm;
       event_log := event_log tm |}
    robot_id.

(** [_enqueue_robot]: the same steps as the denied branch of
    [request_lane]; no method calls it either *)
Definition _enqueue_robot (tm : t) (robot_id : Z) (lane : Lane) : t :=
  {| occupied_lanes := occupied_lanes tm;
     waiting_queues := enqueue (waiting_queues tm) robot_id lane;
     occupation_timestamps := occupation_timestamps tm;
     last_deadlock_check := last_deadlock_check tm;
     event_log := event_log tm |}.

(** the lanes whose timestamp is more than 5 seconds old. Python walks
    the dict in insertion order, which the map does not record: the list
    has the same lanes, once each, in the order of the map, so what is
    proved about the order of the entries holds up to permutation. *)
Definition stale_lanes (tm : t) (current_time : Q) : list Lane :=
  (filter (λ p, Qltb 5 (current_time - p.2) = true)
          (map_to_list (occupation_timestamps tm))).*1.

Definition _perform_periodic_checks (tm : t) (now : Q) : t :=
  let current_time := now in
  if Qltb 2 (current_time - last_deadlock_check tm) then
    let tm1 :=
      {| occupied_lanes := occupied_lanes tm;
         waiting_queues := waiting_queues tm;
         occupation_timestamps := occupation_timestamps tm;
         last_deadlock_check := current_time;
         event_log := event_log tm |} in
    foldl release_lane tm1 (stale_lanes tm1 current_time)
  else tm.

(** [_find_deadlocks] is the placeholder returning the empty set, so the
    loop over it in [_resolve_issues] does nothing. [self.occupied_lanes[lane]]
    raises KeyError for a timestamped lane that is not reserved. *)
Fixpoint resolve_stale (tm : t) (lanes : list Lane) (now : Q)
    : t * result unit :=
  match lanes with
  | [] => (tm, Ok ())
  | lane :: lanes' =>
      match occupied_lanes tm !! lane with
      | None => (tm, Raise KeyError)
      | Some owner =>
          resolve_stale (release_lane (_log_event tm TIMEOUT owner lane now) lane)
                        lanes' now
      end
  end.

Definition _resolve_issues (tm : t) (now : Q)
    : t * result unit :=
  resolve_stale tm (stale_lanes tm now) now.

Definition clear_queues (tm : t) : t :=
  {| occupied_lanes := occupied_lanes tm;
     waiting_queues := ∅;
     occupation_timestamps := occupation_timestamps tm;
     last_deadlock_check := last_deadlock_check tm;
     event_log := event_log tm |}.

(** [_is_lane_available]: the same test as [is_lane_available] *)
Definition _is_lane_available (tm : t) (lane : Lane) : bool :=
  let reverse_lane := reverse lane in
  negb (reserved tm lane) && negb (reserved tm reverse_lane).

(** [_process_queue]: the head of a non-empty queue is popped and dropped *)
Definition _process_queue (tm : t) (lane : Lane) : t :=
  {| occupied_lanes := occupied_lanes tm;
     waiting_queues :=
       match waiting_queues tm !! lane with
       | Some (next_robot :: rest) => <[lane := rest]> (waiting_queues tm)
       | _ => waiting_queues tm
       end;
     occupation_timestamps := occupation_timestamps tm;
     last_deadlock_check := last_deadlock_check tm;
     event_log := event_log tm |}.

(** [resolve_deadlocks], over the key list [list(self.occupied_lanes.keys())]:
    a lane whose timestamp ([0] when missing) is more than 5 seconds old is
    released, and then [self.occupied_lanes[lane]] is read for the log
    entry. *)
Fixpoint resolve_deadlocks_over (tm : t) (keys : list Lane) (now : Q)
    : t * result unit :=
  match keys with
  | [] => (tm, Ok ())
  | lane :: keys' =>
      if Qltb 5 (now - default 0%Q (occupation_timestamps tm !! lane)) then
        let tm1 := release_lane tm lane in
        match occupied_lanes tm1 !! lane with
        | None => (tm1, Raise KeyError)
        | Some owner =>
            resolve_deadlocks_over (_log_event tm1 TIMEOUT owner lane now)
                                   keys' now
        end
      else resolve_deadlocks_over tm keys' now
  end.

(** Python lists the keys in insertion order, which the map does not
    record; here they come in the order of the map *)
Definition resolve_deadlocks (tm : t) (now : Q) : t * result unit :=
  resolve_deadlocks_over tm (map_to_list (occupied_lanes tm)).*1 now.

End TrafficManager.

(** ** networkx, as far as [NavGraph] uses it

    [nx.DiGraph.add_edge] adds both end points as nodes; the lanes of the
    navigation file (which is not among the sources) are taken to carry no
    [weight] attribute, so every edge weighs 1 and [nx.astar_path] with its
    default zero heuristic explores breadth first.
    [astar_path] raises [NodeNotFound] when the source or the target is not
    a node of the graph and [NetworkXNoPath] when the target is not
    reachable; a path it returns starts at the source and ends at the
    target. *)

Module nx.

Definition DiGraph : Type := list Lane.

Definition nodes (G : DiGraph) : list Z := flat_map (λ e, [e.1; e.2]) G.

Definition successors (G : DiGraph) (u : Z) : list Z :=
  (filter (λ e, e.1 = u) G).*2.

(** one breadth-first round: every path of the frontier (stored last node
    first) is extended by the successors not seen so far *)
Definition extend (G : DiGraph) (seen : list Z) (frontier : list (list Z))
    : list Z * list (list Z) :=
  foldl (λ acc p,
           match p with
           | [] => acc
           | u :: _ =>
               foldl (λ acc' v,
                        if bool_decide (v ∈ acc'.1) then acc'
                        else (v :: acc'.1, acc'.2 ++ [v :: p]))
                     acc (successors G u)
           end)
        (seen, []) frontier.

Fixpoint search (G : DiGraph) (target : Z) (rounds : nat) (seen : list Z)
    (frontier : list (list Z)) : option (list Z) :=
  match List.find (λ p, bool_decide (head p = Some target)) frontier with
  | Some p => Some (rev p)
  | None =>
      match rounds with
      | O => None
      | S rounds' =>
          let '(seen', frontier') := extend G seen frontier in
          search G target rounds' seen' frontier'
      end
  end.

Definition astar_path (G : DiGraph) (source target : Z) : result (list Z) :=
  if bool_decide (source ∈ nodes G) && bool_decide (target ∈ nodes G) then
    match search G target (length (nodes G)) [source] [[source]] with
    | Some p => Ok p
    | None => Raise NetworkXNoPath
    end
  else Raise NodeNotFound.

End nx.

(** ** models/nav_graph.py *)

Module NavGraph.

(** a vertex is [[x, y, metadata]]; of the metadata only [is_charger] is
    read. [graph] holds one edge per lane, in file order. *)
Record t := mkNavGraph {
  vertices : list (Q * Q * bool);
  lanes : list Lane;
  graph : nx.DiGraph
}.

(** [get_shortest_path]: only [nx.NetworkXNoPath] is caught *)
Definition get_shortest_path (g : t) (start end_ : Z) : result (list Z) :=
  match nx.astar_path (graph g) start end_ with
  | Raise NetworkXNoPath => Ok []
  | r => r
  end.

(** [load_graph], after the JSON is parsed: every lane becomes an edge *)
Definition load_graph (vs : list (Q * Q * bool)) (ls : list Lane) : t :=
  {| vertices := vs; lanes := ls; graph := ls |}.

End NavGraph.

(** ** models/robot.py *)

Module Robot.

Record RobotConfig := mkRobotConfig {
  battery_drain_rate : Q;
  charge_rate : Q;
  min_battery : Q;
  max_wait_time : Q;
  movement_speed : Q
}.

(** the dataclass defaults *)
Definition default_config : RobotConfig :=
  {| battery_drain_rate := 1 # 2;
     charge_rate := 2;
     min_battery := 20;
     max_wait_time := 10;
     movement_speed := 1 |}.

(** the messages handed to [_log]; an entry of [log] pairs one with the
    time it was written *)
Inductive LogMessage :=
| CannotAssign (status : string)
| NoValidPath (destination_idx : Z)
| Assigned (destination_idx : Z) (path : list Z)
| MovementFailed
| Replanning.

Record t := mkRobot {
  id : Z;
  current_vertex : Z;
  destination : option Z;
  path : list Z;
  status : string;
  battery : Q;
  last_update_time : Q;
  wait_start_time : option Q;
  config : RobotConfig;
  nav_graph : option NavGraph.t;
  color : Z * Z * Z;
  current_lane : option Lane;
  progress : Q;
  log : list (Q * LogMessage)
}.

(** attribute assignments, one per attribute the methods write *)
Definition set_current_vertex (v : Z) (r : t) : t :=
  mkRobot (id r) v (destination r) (path r) (status r) (battery r)
    (last_update_time r) (wait_start_time r) (config r) (nav_graph r)
    (color r) (current_lane r) (progress r) (log r).

Definition set_destination (d : option Z) (r : t) : t :=
  mkRobot (id r) (current_vertex r) d (path r) (status r) (battery r)
    (last_update_time r) (wait_start_time r) (config r) (nav_graph r)
    (color r) (current_lane r) (progress r) (log r).

Definition set_path (p : list Z) (r : t) : t :=
  mkRobot (id r) (current_vertex r) (destination r) p (status r) (battery r)
    (last_update_time r) (wait_start_time r) (config r) (nav_graph r)
    (color r) (current_lane r) (progress r) (log r).

Definition set_status (s : string) (r : t) : t :=
  mkRobot (id r) (current_vertex r) (destination r) (path r) s (battery r)
    (last_update_time r) (wait_start_time r) (config r) (nav_graph r)
    (color r) (current_lane r) (progress r) (log r).

Definition set_battery (b : Q) (r : t) : t :=
  mkRobot (id r) (current_vertex r) (destination r) (path r) (status r) b
    (last_update_time r) (wait_start_time r) (config r) (nav_graph r)
    (color r) (current_lane r) (progress r) (log r).

Definition set_last_update_time (u : Q) (r : t) : t :=
  mkRobot (id r) (current_vertex r) (destination r) (path r) (status r)
    (battery r) u (wait_start_time r) (config r) (nav_graph r)
    (color r) (current_lane r) (progress r) (log r).

Definition set_wait_start_time (w : option Q) (r : t) : t :=
  mkRobot (id r) (current_vertex r) (destination r) (path r) (status r)
    (battery r) (last_update_time r) w (config r) (nav_graph r)
    (color r) (current_lane r) (progress r) (log r).

Definition set_current_lane (l : option Lane) (r : t) : t :=
  mkRobot (id r) (current_vertex r) (destination r) (path r) (status r)
    (battery r) (last_update_time r) (wait_start_time r) (config r)
    (nav_graph r) (color r) l (progress r) (log r).

Definition set_progress (p : Q) (r : t) : t :=
  mkRobot (id r) (current_vertex r) (destination r) (path r) (status r)
    (battery r) (last_update_time r) (wait_start_time r) (config r)
    (nav_graph r) (color r) (current_lane r) p (log r).

(** [_log]: the entry is appended to [self.log] (the copy written to
    fleet_logs.txt and printed is output only) *)
Definition _log (message : LogMessage) (now : Q) (r : t) : t :=
  mkRobot (id r) (current_vertex r) (destination r) (path r) (status r)
    (battery r) (last_update_time r) (wait_start_time r) (config r)
    (nav_graph r) (color r) (current_lane r) (progress r)
    (log r ++ [(now, message)]).

Definition _generate_color (robot_id : Z) : Z * Z * Z :=
  ((robot_id * 50) `mod` 256, (robot_id * 100) `mod` 256,
   (robot_id * 150) `mod` 256).

(** [Robot.__init__] *)
Definition init (robot_id start_vertex_idx : Z) (g : option NavGraph.t)
    (cfg : RobotConfig) (now : Q) : t :=
  {| id := robot_id;
     current_vertex := start_vertex_idx;
     destination := None;
     path := [];
     status := "idle";
     battery := 100;
     last_update_time := now;
     wait_start_time := None;
     config := cfg;
     nav_graph := g;
     color := _generate_color robot_id;
     current_lane := None;
     progress := 0;
     log := [] |}.

(** [_calculate_path]: an exception of the path provider leaves the robot
    as it was; calling a method of a missing graph is an AttributeError. *)
Definition _calculate_path (self : t) : t * result unit :=
  match destination self with
  | Some d =>
      match nav_graph self with
      | None => (self, Raise (AttributeError "get_shortest_path"))
      | Some g =>
          match NavGraph.get_shortest_path g (current_vertex self) d with
          | Raise e => (self, Raise e)
          | Ok p =>
              let self1 := set_path p self in
              (match p with
               | [] => set_status "error" self1
               | _ :: _ => self1
               end, Ok ())
          end
      end
  | None => (self, Ok ())
  end.

Definition assign_task (self : t) (destination_idx : Z) (now : Q)
    : t * result bool :=
  if bool_decide (status self = "charging") || bool_decide (status self = "error")
  then (_log (CannotAssign (status self)) now self, Ok false)
  else
    let self1 := set_destination (Some destination_idx) self in
    match _calculate_path self1 with
    | (self2, Raise e) => (self2, Raise e)
    | (self2, Ok _) =>
        match path self2 with
        | [] => (_log (NoValidPath destination_idx) now self2, Ok false)
        | _ :: _ =>
            let self3 :=
              set_wait_start_time None
                (set_status "moving"
                   (set_current_lane None (set_progress 0 self2))) in
            (_log (Assigned destination_idx (path self3)) now self3, Ok true)
        end
    end.

Definition _check_imminent_collision (self : t) (traffic_manager : TrafficManager.t)
    (delta_time : Q) : bool :=
  match current_lane self, path self with
  | Some _, p0 :: p1 :: _ =>
      let next_lane := (p0, p1) in
      let progress_in_1sec :=
        (progress self + movement_speed (config self) * delta_time)%Q in
      if Qle_bool 1 progress_in_1sec
      then TrafficManager.is_lane_occupied traffic_manager next_lane
      else false
  | _, _ => false
  end.

Definition _handle_movement (self : t) (traffic_manager : TrafficManager.t)
    (delta_time now : Q) : t * TrafficManager.t * bool :=
  match path self with
  | [] => (_log MovementFailed now self, traffic_manager, false)
  | next_vertex :: rest =>
      let lane := (current_vertex self, next_vertex) in
      (* only request the lane if it is not already held *)
      let '(self1, tm1, proceed) :=
        if bool_decide (current_lane self = Some lane)
        then (self, traffic_manager, true)
        else
          let '(tm', granted) :=
            TrafficManager.request_lane traffic_manager (id self) lane now in
          if granted
          then (set_progress 0 (set_current_lane (Some lane) self), tm', true)
          else
            (if bool_decide (status self = "waiting") then self
             else set_status "waiting" (set_wait_start_time (Some now) self),
             tm', false) in
      if negb proceed then (self1, tm1, false)
      else
        (* perform movement *)
        let self2 :=
          set_progress
            (progress self1 + delta_time * movement_speed (config self1))%Q
            self1 in
        if Qle_bool 1 (progress self2) then
          let self3 :=
            set_progress 0 (set_path rest (set_current_vertex next_vertex self2)) in
          let '(self4, tm2) :=
            match current_lane self3 with
            | Some held =>
                (set_current_lane None self3,
                 TrafficManager.release_lane tm1 held)
            | None => (self3, tm1)
            end in
          let self5 :=
            match path self4 with
            | [] => set_status "idle" self4
            | _ :: _ => self4
            end in
          (self5, tm2, true)
        else
          let drained :=
            (battery self2 - battery_drain_rate (config self2) * delta_time)%Q in
          (set_battery (if Qltb 0 drained then drained else 0) self2, tm1, true)
  end.

(** [_handle_waiting]: [self.wait_start_time and ...] is false for [None]
    and for the float 0.0 *)
Definition _handle_waiting (self : t) (current_time : Q) : t * result bool :=
  match wait_start_time self with
  | Some started =>
      if negb (Qeq_bool started 0)
         && Qltb (max_wait_time (config self)) (current_time - started)
      then
        match _calculate_path self with
        | (self1, Raise e) => (self1, Raise e)
        | (self1, Ok _) =>
            (_log Replanning current_time (set_status "moving" self1), Ok true)
        end
      else (self, Ok false)
  | None => (self, Ok false)
  end.

(** [update]: [_handle_charging] and [_handle_low_battery] are not defined
    in the class, so the calls raise AttributeError; the status written by
    the collision check stays written. *)
Definition update (self : t) (traffic_manager : TrafficManager.t)
    (delta_time now : Q) : t * TrafficManager.t * result bool :=
  let self1 :=
    if _check_imminent_collision self traffic_manager delta_time
    then set_status "emergency_stop" self else self in
  if bool_decide (status self1 = "charging") then
    (self1, traffic_manager, Raise (AttributeError "_handle_charging"))
  else if bool_decide (status self1 = "error") then
    (set_last_update_time now self1, traffic_manager, Ok false)
  else if Qltb (battery self1) (min_battery (config self1)) then
    (self1, traffic_manager, Raise (AttributeError "_handle_low_battery"))
  else if bool_decide (status self1 = "moving") then
    let '(self2, tm2, changed) :=
      _handle_movement self1 traffic_manager delta_time now in
    let self3 :=
      if _check_imminent_collision self2 tm2 delta_time
      then set_status "emergency_stop" self2 else self2 in
    (set_last_update_time now self3, tm2, Ok changed)
  else if bool_decide (status self1 = "waiting") then
    match _handle_waiting self1 now with
    | (self2, Raise e) => (self2, traffic_manager, Raise e)
    | (self2, Ok changed) =>
        (set_last_update_time now self2, traffic_manager, Ok changed)
    end
  else (set_last_update_time now self1, traffic_manager, Ok false).

End Robot.

(** ** controllers/fleet_manager.py *)

Module FleetManager.

(** the robots are objects shared with the list: a method that mutates the
    robot found by [get_robot] mutates that entry of [robots] *)
Record t := mkFleetManager {
  robots : list Robot.t;
  traffic_manager : TrafficManager.t;
  selected_robot : option Z;
  next_id : Z
}.

(** [FleetManager.__init__] *)
Definition init (tm : TrafficManager.t) : t :=
  {| robots := []; traffic_manager := tm; selected_robot := None; next_id := 1 |}.

(** the [message] strings of the result dictionary *)
Inductive Message :=
| RobotNotFound (robot_id : Z)
| RobotCharging (robot_id : Z) (battery : Q)
| NoNavigationGraph
| NoValidPath (destination_idx : Z)
| Assignment (succeeded : bool).

(** the dictionary returned by [assign_task], one field per key *)
Record TaskResult := mkTaskResult {
  success : bool;
  message : Message;
  estimated_time : Q;
  path : list Z
}.

Definition spawn_robot (fm : t) (vertex_idx : Z) (g : option NavGraph.t)
    (now : Q) : t * Robot.t :=
  let robot := Robot.init (next_id fm) vertex_idx g Robot.default_config now in
  ({| robots := robots fm ++ [robot];
      traffic_manager := traffic_manager fm;
      selected_robot := selected_robot fm;
      next_id := next_id fm + 1 |}, robot).

(** [get_robot]: the first robot with the id *)
Definition get_robot (fm : t) (robot_id : Z) : option Robot.t :=
  List.find (λ r, bool_decide (Robot.id r = robot_id)) (robots fm).

(** the list after the robot found by [get_robot] was mutated into [r'] *)
Fixpoint store_robot (rs : list Robot.t) (robot_id : Z) (r' : Robot.t)
    : list Robot.t :=
  match rs with
  | [] => []
  | r :: rs' =>
      if bool_decide (Robot.id r = robot_id) then r' :: rs'
      else r :: store_robot rs' robot_id r'
  end.

Definition with_robots (fm : t) (rs : list Robot.t) : t :=
  {| robots := rs;
     traffic_manager := traffic_manager fm;
     selected_robot := selected_robot fm;
     next_id := next_id fm |}.

Definition assign_task (fm : t) (robot_id destination_idx : Z) (now : Q)
    : t * result TaskResult :=
  match get_robot fm robot_id with
  | None => (fm, Ok (mkTaskResult false (RobotNotFound robot_id) 0 []))
  | Some robot =>
      if bool_decide (Robot.status robot = "charging") then
        (fm, Ok (mkTaskResult false
                   (RobotCharging robot_id (Robot.battery robot)) 0 []))
      else
        match Robot.nav_graph robot with
        | None => (fm, Ok (mkTaskResult false NoNavigationGraph 0 []))
        | Some nav_graph =>
            match NavGraph.get_shortest_path nav_graph
                    (Robot.current_vertex robot) destination_idx with
            | Raise e => (fm, Raise e)
            | Ok [] =>
                (fm, Ok (mkTaskResult false (NoValidPath destination_idx) 0 []))
            | Ok p =>
                match Robot.assign_task robot destination_idx now with
                | (robot', Raise e) =>
                    (with_robots fm (store_robot (robots fm) robot_id robot'),
                     Raise e)
                | (robot', Ok ok) =>
                    (with_robots fm (store_robot (robots fm) robot_id robot'),
                     Ok (mkTaskResult ok (Assignment ok)
                           (inject_Z (Z.of_nat (length p)) * 1) p))
                end
            end
        end
  end.

(** the loop of [update_robots]: every robot is updated in list order with
    the shared traffic manager; an exception ends the loop *)
Fixpoint update_each (rs : list Robot.t) (tm : TrafficManager.t)
    (delta_time now : Q) : list Robot.t * TrafficManager.t * result unit :=
  match rs with
  | [] => ([], tm, Ok ())
  | robot :: rs' =>
      match Robot.update robot tm delta_time now with
      | (robot', tm', Raise e) => (robot' :: rs', tm', Raise e)
      | (robot', tm', Ok _) =>
          let '(rs'', tm'', outcome) := update_each rs' tm' delta_time now in
          (robot' :: rs'', tm'', outcome)
      end
  end.

Definition update_robots (fm : t) (delta_time now : Q) : t * result unit :=
  let '(rs, tm, outcome) :=
    update_each (robots fm) (traffic_manager fm) delta_time now in
  ({| robots := rs;
      traffic_manager := tm;
      selected_robot := selected_robot fm;
      next_id := next_id fm |}, outcome).

(** a run of ticks [(delta_time, now)], stopped by the first exception *)
Fixpoint run_ticks (fm : t) (ticks : list (Q * Q)) : t * result unit :=
  match ticks with
  | [] => (fm, Ok ())
  | (delta_time, now) :: ticks' =>
      match update_robots fm delta_time now with
      | (fm', Raise e) => (fm', Raise e)
      | (fm', Ok _) => run_ticks fm' ticks'
      end
  end.

Definition select_robot (fm : t) (robot_id : option Z) : t :=
  {| robots := robots fm;
     traffic_manager := traffic_manager fm;
     selected_robot := robot_id;
     next_id := next_id fm |}.

Definition clear_robots (fm : t) : t :=
  {| robots := [];
     traffic_manager := traffic_manager fm;
     selected_robot := None;
     next_id := 1 |}.

End FleetManager.

(** ** Arbiter runs

    The operations that change the arbiter, and the state reached by
    running a list of them from a state. *)

Module Arbiter.
Import TrafficManager.

Inductive Op :=
| Request (robot_id : Z) (lane : Lane) (now : Q)
| Release (lane : Lane)
| PeriodicChecks (now : Q)
| ResolveIssues (now : Q)
| ClearQueues.

Definition apply (tm : t) (op : Op) : t :=
  match op with
  | Request robot_id lane now => (request_lane tm robot_id lane now).1
  | Release lane => release_lane tm lane
  | PeriodicChecks now => _perform_periodic_checks tm now
  | ResolveIssues now => (_resolve_issues tm now).1
  | ClearQueues => clear_queues tm
  end.

Definition run (tm : t) (ops : list Op) : t := foldl apply tm ops.

(** a state is reachable when a run from the empty arbiter ends in it *)
Definition reachable (tm : t) : Prop :=
  ∃ (started : Q) (ops : list Op), tm = run (init started) ops.

(** no lane is reserved together with its reverse *)
Definition mutual_exclusion (tm : t) : Prop :=
  ∀ L : Lane, reserved tm L = true → reserved tm (reverse L) = false.

(** the same, for the lanes between two different vertices *)
Definition mutual_exclusion_proper (tm : t) : Prop :=
  ∀ L : Lane, L.1 ≠ L.2 →
    reserved tm L = true → reserved tm (reverse L) = false.

(** the invariant on the reservation map itself *)
Definition exclusive (m : gmap Lane Z) : Prop :=
  ∀ L : Lane, L.1 ≠ L.2 → is_Some (m !! L) → m !! reverse L = None.

(** agent [A] requests [L], then agent [B] requests the reverse of [L]:
    exactly one request is granted and the loser is in the queue of the
    lane it asked for *)
Definition exclusive_grant_enqueues_loser (tm : t) (A B : Z) (L : Lane)
    (t1 t2 : Q) : Prop :=
  reserved tm L = false → reserved tm (reverse L) = false →
  let first := request_lane tm A L t1 in
  let second := request_lane first.1 B (reverse L) t2 in
  xorb first.2 second.2 = true ∧
  (first.2 = false → A ∈ queue second.1 L) ∧
  (second.2 = false → B ∈ queue second.1 (reverse L)).

(** a granted request leaves the agent in no wait queue *)
Definition grant_clears_waits (tm : t) (A : Z) (L : Lane) (now : Q) : Prop :=
  (request_lane tm A L now).2 = true →
  ∀ L' : Lane, A ∉ queue (request_lane tm A L now).1 L'.

(** releasing a lane that is not reserved changes nothing *)
Definition release_is_noop (tm : t) (L : Lane) : Prop :=
  reserved tm L = false → release_lane tm L = tm.

(** robot 2 holds lane (0,1) and robot 1 waits for it *)
Definition contended : t :=
  run (init 0) [Request 2 (0, 1) 0; Request 1 (0, 1) 1].

(** robots 2 and 3 queued for lane (0,1) while robot 1 held it; robot 1
    released it, which popped robot 2 *)
Definition released_with_waiter : t :=
  run (init 0)
    [Request 1 (0, 1) 0; Request 2 (0, 1) 1; Request 3 (0, 1) 2; Release (0, 1)].

(** the same on lane (0,1), while robot 4 holds lane (2,3) and robot 5
    waits for it: lane (0,1) is free and robot 3 is still in its queue *)
Definition two_queues : t :=
  run (init 0)
    [Request 1 (0, 1) 0; Request 2 (0, 1) 1; Request 3 (0, 1) 2;
     Request 4 (2, 3) 3; Request 5 (2, 3) 4; Release (0, 1)].

End Arbiter.

(** ** Fleet scenarios and the statements about the fleet *)

Module Fleet.
Import FleetManager.

(** a corridor 0 <-> 1 <-> 2 and a separate lane 3 -> 4 *)
Definition corridor : NavGraph.t :=
  NavGraph.load_graph [] [(0, 1); (1, 2); (2, 1); (1, 0); (3, 4)].

(** one robot, id 1, spawned at vertex 0 at time 0 *)
Definition spawned : t :=
  (spawn_robot (init (TrafficManager.init 0)) 0 (Some corridor) 0).1.

(** [n] ticks of half a second, the first one at [start + 1/2] *)
Definition ticks (n : nat) (start : Q) : list (Q * Q) :=
  (λ k, (1 # 2, start + inject_Z (Z.of_nat k) * (1 # 2))%Q) <$> seq 1 n.

(** robot 1 was sent to vertex 2 and ticked three times: it holds lane
    (0,1), granted at time 3/2, and is half way along it *)
Definition on_lane : t :=
  (run_ticks (assign_task spawned 1 2 0).1 (ticks 3 0)).1.

(** ... and is then sent to vertex 1 instead, at time 2 *)
Definition reassigned : t := (assign_task on_lane 1 1 2).1.

(** ... and ticked once more: it holds lane (0,0) too, and has stopped
    because lane (0,1), the next one of its new path, is reserved *)
Definition stuck : t := (run_ticks reassigned (ticks 1 2)).1.

(** a robot that [update] leaves alone: stopped, with enough battery *)
Definition halted (r : Robot.t) : Prop :=
  Robot.status r = "emergency_stop" ∧
  Qltb (Robot.battery r) (Robot.min_battery (Robot.config r)) = false.

(** a moving robot that holds a lane and is given a new destination has
    the lane released in the arbiter *)
Definition reassignment_releases (fm : t) (robot_id destination_idx : Z)
    (now : Q) : Prop :=
  ∀ (robot : Robot.t) (L : Lane) (fm' : t) (res : TaskResult),
    get_robot fm robot_id = Some robot →
    Robot.status robot = "moving" →
    Robot.current_lane robot = Some L →
    TrafficManager.occupied_lanes (traffic_manager fm) !! L = Some robot_id →
    assign_task fm robot_id destination_idx now = (fm', Ok res) →
    success res = true →
    TrafficManager.reserved (traffic_manager fm') L = false.

(** a destination without a path gives the failure result and puts the
    robot in status "error" *)
Definition unreachable_sets_error (fm : t) (robot_id destination_idx : Z)
    (now : Q) : Prop :=
  ∀ (robot : Robot.t) (g : NavGraph.t),
    get_robot fm robot_id = Some robot →
    Robot.nav_graph robot = Some g →
    NavGraph.get_shortest_path g (Robot.current_vertex robot) destination_idx
      = Ok [] →
    ∃ (fm' : t) (res : TaskResult) (robot' : Robot.t),
      assign_task fm robot_id destination_idx now = (fm', Ok res) ∧
      success res = false ∧ path res = [] ∧ estimated_time res = 0%Q ∧
      get_robot fm' robot_id = Some robot' ∧
      Robot.status robot' = "error".

(** [update] raises AttributeError *)
Definition update_raises (self : Robot.t) (tm : TrafficManager.t)
    (delta_time now : Q) : Prop :=
  ∃ attr : string,
    (Robot.update self tm delta_time now).2 = Raise (AttributeError attr).

(** [update] raises for every charging robot, and for every robot with a
    low battery that is neither charging nor in error *)
Definition update_raises_when_charging_or_low (self : Robot.t)
    (tm : TrafficManager.t) (delta_time now : Q) : Prop :=
  (Robot.status self = "charging" → update_raises self tm delta_time now) ∧
  ((Robot.battery self < Robot.min_battery (Robot.config self))%Q →
   Robot.status self ≠ "charging" → Robot.status self ≠ "error" →
   update_raises self tm delta_time now).


(** a charging robot half way along lane (0,1), with lane (1,2) next *)
Definition charging_on_lane : Robot.t :=
  Robot.set_status "charging"
    (Robot.set_progress (1 # 2)
       (Robot.set_current_lane (Some (0, 1))
          (Robot.set_path [1; 2]
             (Robot.init 1 0 (Some corridor) Robot.default_config 0)))).

(** an arbiter in which robot 2 holds lane (1,2) *)
Definition next_lane_taken : TrafficManager.t :=
  (TrafficManager.request_lane (TrafficManager.init 0) 2 (1, 2) 0).1.

(** a robot that has waited at vertex 0 since time 1 for a lane towards
    vertex 4, which the corridor does not reach from vertex 0 *)
Definition waiting_cut_off : Robot.t :=
  Robot.set_status "waiting"
    (Robot.set_wait_start_time (Some 1%Q)
       (Robot.set_path [1; 4]
          (Robot.set_destination (Some 4)
             (Robot.init 1 0 (Some corridor) Robot.default_config 0)))).

End Fleet.

(** ** Invariants of the arbiter and of the robots *)

Module Invariants.
Import TrafficManager.

(** a lane has a timestamp exactly when it is reserved *)
Definition stamped (tm : t) : Prop :=
  ∀ L : Lane,
    is_Some (occupied_lanes tm !! L) ↔ is_Some (occupation_timestamps tm !! L).

(** no robot is twice in the queue of a lane *)
Definition queues_nodup (tm : t) : Prop := ∀ L : Lane, NoDup (queue tm L).

(** a lane is stale when its timestamp is more than 5 seconds old *)
Definition stale (tm : t) (now : Q) (L : Lane) : Prop :=
  ∃ granted : Q,
    occupation_timestamps tm !! L = Some granted ∧ (5 < now - granted)%Q.

(** the test of [resolve_deadlocks], where a missing timestamp counts as 0 *)
Definition overdue (tm : t) (now : Q) (L : Lane) : Prop :=
  (5 < now - default 0%Q (occupation_timestamps tm !! L))%Q.

(** the two operations a robot performs on the arbiter *)
Definition lane_traffic (op : Arbiter.Op) : Prop :=
  match op with
  | Arbiter.Request _ _ _ | Arbiter.Release _ => True
  | _ => False
  end.

(** the lane a robot records as its current one is reserved under its id *)
Definition holds_own_lane (r : Robot.t) (tm : t) : Prop :=
  ∀ L : Lane,
    Robot.current_lane r = Some L →
    occupied_lanes tm !! L = Some (Robot.id r).

(** every robot of a list holds the lane it records *)
Definition lanes_owned (rs : list Robot.t) (tm : t) : Prop :=
  Forall (λ r, holds_own_lane r tm) rs.

(** the fields of a robot that say where it is and what it does *)
Definition same_course (r r' : Robot.t) : Prop :=
  Robot.id r' = Robot.id r ∧
  Robot.status r' = Robot.status r ∧
  Robot.current_vertex r' = Robot.current_vertex r ∧
  Robot.destination r' = Robot.destination r ∧
  Robot.path r' = Robot.path r ∧
  Robot.current_lane r' = Robot.current_lane r ∧
  Robot.progress r' = Robot.progress r ∧
  Robot.battery r' = Robot.battery r.

End Invariants.

(** ** Fleet runs

    The calls an orchestration layer makes on the fleet manager, and the
    fleet reached by a list of them. A tick that raises leaves the fleet as
    the exception found it. *)

Module System.
Import FleetManager.

Inductive Call :=
| Spawn (vertex_idx : Z) (g : option NavGraph.t) (now : Q)
| Assign (robot_id destination_idx : Z) (now : Q)
| Tick (delta_time now : Q)
| Select (robot_id : option Z)
| Clear.

Definition call (fm : t) (c : Call) : t :=
  match c with
  | Spawn vertex_idx g now => (spawn_robot fm vertex_idx g now).1
  | Assign robot_id destination_idx now =>
      (assign_task fm robot_id destination_idx now).1
  | Tick delta_time now => (update_robots fm delta_time now).1
  | Select robot_id => select_robot fm robot_id
  | Clear => clear_robots fm
  end.

Definition run (fm : t) (calls : list Call) : t := foldl call fm calls.

(** a fleet is reachable when a run from a new fleet manager with a new
    traffic manager ends in it *)
Definition reachable (fm : t) : Prop :=
  ∃ (started : Q) (calls : list Call),
    fm = run (init (TrafficManager.init started)) calls.

(** robot 1, spawned at vertex 0, was sent to vertex 2 and ticked three
    times; robot 2 was spawned at vertex 2 and left idle *)
Definition convoy : t :=
  run (init (TrafficManager.init 0))
    [Spawn 0 (Some Fleet.corridor) 0; Spawn 2 (Some Fleet.corridor) 0;
     Assign 1 2 0; Tick (1 # 2) (1 # 2); Tick (1 # 2) 1; Tick (1 # 2) (3 # 2)].

(** the fleet [spawned] after its robot was sent, through its own
    [assign_task], to vertex 4, which it cannot reach: it is in error *)
Definition grounded : t :=
  with_robots Fleet.spawned
    [(Robot.assign_task
        (Robot.init 1 0 (Some Fleet.corridor) Robot.default_config 0) 4 0).1].

(** the robot that [get_robot] finds (a new one without a graph when it
    finds none) *)
Definition robot_of (fm : t) (robot_id : Z) : Robot.t :=
  default (Robot.init robot_id 0 None Robot.default_config 0)
          (get_robot fm robot_id).

(** robot 1, spawned at vertex 0, was sent to vertex 2 and robot 2, spawned
    at vertex 2, to vertex 0; after three ticks robot 1 is half way along
    lane (0,1) and robot 2 half way along lane (2,1) *)
Definition crossing : t :=
  run (init (TrafficManager.init 0))
    [Spawn 0 (Some Fleet.corridor) 0; Spawn 2 (Some Fleet.corridor) 0;
     Assign 1 2 0; Assign 2 0 0;
     Tick (1 # 2) (1 # 2); Tick (1 # 2) 1; Tick (1 # 2) (3 # 2)].

(** robot 1, spawned at vertex 0, was sent to vertex 2; robot 2, spawned at
    vertex 1, was sent there too one tick later. Robot 2 was granted lane
    (1,2) at time 2, in the tick in which robot 1 reached vertex 1; at time
    5/2 robot 1 asked for the lane, was put in its queue and waits, while
    robot 2 is three quarters along the lane *)
Definition queued : t :=
  run (init (TrafficManager.init 0))
    [Spawn 0 (Some Fleet.corridor) 0; Spawn 1 (Some Fleet.corridor) 0;
     Assign 1 2 0; Tick (1 # 2) (1 # 2); Assign 2 2 (1 # 2);
     Tick (1 # 2) 1; Tick (1 # 2) (3 # 2); Tick (1 # 2) 2;
     Tick (1 # 4) (5 # 2)].

(** the ids of the fleet are distinct and below the next id to hand out *)
Definition well_numbered (fm : t) : Prop :=
  NoDup (Robot.id <$> robots fm) ∧
  1 ≤ next_id fm ∧
  ∀ i : Z, i ∈ Robot.id <$> robots fm → 1 ≤ i < next_id fm.

End System.

(** * Proofs *)

Lemma Qltb_true x y : Qltb x y = true <-> (x < y)%Q.
Proof.
  unfold Qltb. rewrite negb_true_iff, <- not_true_iff_false, Qle_bool_iff.
  split; [apply Qnot_le_lt | apply Qlt_not_le].
Qed.

Lemma Qltb_false x y : Qltb x y = false <-> (y <= x)%Q.
Proof.
  unfold Qltb. rewrite negb_false_iff. apply Qle_bool_iff.
Qed.

Module ArbiterFacts.
Import TrafficManager Arbiter.

Lemma reserved_true tm L : reserved tm L = true ↔ is_Some (occupied_lanes tm !! L).
Proof. unfold reserved. apply bool_decide_eq_true. Qed.

Lemma reserved_false tm L : reserved tm L = false ↔ occupied_lanes tm !! L = None.
Proof.
  unfold reserved. rewrite bool_decide_eq_false, eq_None_not_Some. done.
Qed.

Lemma reverse_involutive L : reverse (reverse L) = L.
Proof. by destruct L. Qed.

Lemma reverse_ne L : L.1 ≠ L.2 → reverse L ≠ L.
Proof. destruct L as [a b]; unfold reverse; simpl. intros Hne [= H1 H2]. done. Qed.

(** what a request does to the reservation map *)
Lemma request_lane_occupied tm robot_id lane now :
  let res := request_lane tm robot_id lane now in
  (res.2 = false ∧ occupied_lanes res.1 = occupied_lanes tm) ∨
  (res.2 = true ∧ reserved tm lane = false ∧ reserved tm (reverse lane) = false ∧
   occupied_lanes res.1 = <[lane := robot_id]> (occupied_lanes tm)).
Proof.
  unfold request_lane, detect_collisions.
  destruct (reserved tm (reverse lane)) eqn:Hrev; simpl; [by left |].
  destruct (reserved tm lane) eqn:Hl; simpl; [by left | by right].
Qed.

Lemma release_lane_occupied tm lane :
  occupied_lanes (release_lane tm lane) = delete lane (occupied_lanes tm).
Proof.
  unfold release_lane. destruct (reserved tm lane) eqn:Hl; simpl; [done |].
  apply reserved_false in Hl. by rewrite delete_id.
Qed.

Lemma exclusive_empty : exclusive ∅.
Proof. intros L _ [x Hx]. by rewrite lookup_empty in Hx. Qed.

Lemma exclusive_delete m lane : exclusive m → exclusive (delete lane m).
Proof.
  intros Hm L Hne [x Hx].
  apply lookup_delete_Some in Hx as [_ Hx].
  apply lookup_delete_None. right. apply Hm; eauto.
Qed.

Lemma exclusive_insert m lane robot_id :
  m !! lane = None → m !! reverse lane = None →
  exclusive m → exclusive (<[lane := robot_id]> m).
Proof.
  intros Hl Hrev Hm L Hne [x Hx].
  destruct (decide (lane = L)) as [-> | Hother].
  - rewrite lookup_insert_ne; [done | by apply not_eq_sym, reverse_ne].
  - rewrite lookup_insert_ne in Hx by done.
    destruct (decide (lane = reverse L)) as [-> | Hother'].
    + rewrite reverse_involutive in Hrev. congruence.
    + rewrite lookup_insert_ne by done. apply Hm; eauto.
Qed.

Lemma exclusive_request tm robot_id lane now :
  exclusive (occupied_lanes tm) →
  exclusive (occupied_lanes (request_lane tm robot_id lane now).1).
Proof.
  intros Hm.
  destruct (request_lane_occupied tm robot_id lane now)
    as [[_ ->] | (_ & Hl & Hrev & ->)]; [done |].
  apply reserved_false in Hl, Hrev. by apply exclusive_insert.
Qed.

Lemma exclusive_release tm lane :
  exclusive (occupied_lanes tm) → exclusive (occupied_lanes (release_lane tm lane)).
Proof. rewrite release_lane_occupied. apply exclusive_delete. Qed.

Lemma exclusive_release_all lanes tm :
  exclusive (occupied_lanes tm) →
  exclusive (occupied_lanes (foldl release_lane tm lanes)).
Proof.
  revert tm. induction lanes as [| lane lanes IH]; intros tm Hm; simpl; [done |].
  by apply IH, exclusive_release.
Qed.

Lemma exclusive_resolve_stale lanes tm now :
  exclusive (occupied_lanes tm) →
  exclusive (occupied_lanes (resolve_stale tm lanes now).1).
Proof.
  revert tm. induction lanes as [| lane lanes IH]; intros tm Hm; simpl; [done |].
  destruct (occupied_lanes tm !! lane) as [owner |]; [| done].
  apply IH. by apply exclusive_release.
Qed.

Lemma exclusive_apply tm op :
  exclusive (occupied_lanes tm) → exclusive (occupied_lanes (apply tm op)).
Proof.
  intros Hm. destruct op as [robot_id lane now | lane | now | now |]; simpl.
  - by apply exclusive_request.
  - by apply exclusive_release.
  - unfold _perform_periodic_checks.
    destruct (Qltb 2 _); [| done]. by apply exclusive_release_all.
  - by apply exclusive_resolve_stale.
  - done.
Qed.

Lemma exclusive_run ops tm :
  exclusive (occupied_lanes tm) → exclusive (occupied_lanes (run tm ops)).
Proof.
  revert tm. induction ops as [| op ops IH]; intros tm Hm; simpl; [done |].
  by apply IH, exclusive_apply.
Qed.

(** C1, as stated, fails: the lane from a vertex to itself is its own
    reverse, and [request_lane] grants it. *)
Lemma mutual_exclusion_fails_on_loop :
  ¬ (∀ tm, reachable tm → mutual_exclusion tm).
Proof.
  intros H.
  specialize (H (run (init 0) [Request 1 (3, 3) 0])).
  assert (Hr : reachable (run (init 0) [Request 1 (3, 3) 0])) by (by exists 0%Q, [Request 1 (3, 3) 0]).
  specialize (H Hr (3, 3) eq_refl). vm_compute in H. discriminate.
Qed.

(** C1 (amended): in every state reachable by requests, releases and stale
    reclamation from the empty arbiter, a reserved lane between two
    different vertices never has its reverse reserved. *)
Theorem mutual_exclusion_reachable tm L :
  reachable tm → L.1 ≠ L.2 →
  reserved tm L = true → reserved tm (reverse L) = false.
Proof.
  intros (started & ops & ->) Hne HL.
  apply reserved_true in HL. apply reserved_false.
  by apply (exclusive_run ops (init started) exclusive_empty).
Qed.

(** the theorem at the arbiter [contended] and lane (0,1) *)
Lemma mutual_exclusion_reachable_witness :
  reserved contended (reverse (0, 1)) = false.
Proof.
  apply mutual_exclusion_reachable.
  - exists 0%Q, [Request 2 (0, 1) 0; Request 1 (0, 1) 1]. reflexivity.
  - simpl. lia.
  - reflexivity.
Defined.

(** what a request does to the wait queues: nothing, or the requester is
    appended to the queue of the requested lane, where it was absent *)
Lemma enqueue_lookup queues robot_id lane L' :
  default [] ((enqueue queues robot_id lane) !! L') = default [] (queues !! L') ∨
  (L' = lane ∧ (robot_id ∉ default [] (queues !! lane)) ∧
   default [] ((enqueue queues robot_id lane) !! L')
     = default [] (queues !! lane) ++ [robot_id]).
Proof.
  unfold enqueue.
  destruct (queues !! lane) as [q |] eqn:Hq; simpl.
  - rewrite Hq; simpl. destruct (bool_decide (robot_id ∈ q)) eqn:Hin; [by left |].
    apply bool_decide_eq_false in Hin.
    destruct (decide (L' = lane)) as [-> | Hne].
    + right. by rewrite lookup_insert_eq.
    + left. by rewrite lookup_insert_ne.
  - rewrite lookup_insert_eq; simpl.
    destruct (decide (L' = lane)) as [-> | Hne].
    + right. rewrite lookup_insert_eq. split_and!; [done | apply not_elem_of_nil | done].
    + left. by rewrite !lookup_insert_ne.
Qed.

Lemma request_lane_queue tm robot_id lane now L' :
  let res := request_lane tm robot_id lane now in
  queue res.1 L' = queue tm L' ∨
  (res.2 = false ∧ L' = lane ∧ (robot_id ∉ queue tm lane) ∧
   queue res.1 lane = queue tm lane ++ [robot_id]).
Proof.
  unfold request_lane, detect_collisions, queue.
  destruct (reserved tm (reverse lane)); simpl; [by left |].
  destruct (reserved tm lane); simpl; [| by left].
  destruct (enqueue_lookup (waiting_queues tm) robot_id lane L')
    as [-> | (-> & Hnin & Heq)]; [by left | by right].
Qed.

(** a granted request writes the reservation and its timestamp, and
    nothing else *)
Lemma request_lane_granted tm robot_id lane now :
  (request_lane tm robot_id lane now).2 = true →
  waiting_queues (request_lane tm robot_id lane now).1 = waiting_queues tm ∧
  event_log (request_lane tm robot_id lane now).1 = event_log tm.
Proof.
  unfold request_lane, detect_collisions.
  destruct (reserved tm (reverse lane)); simpl; [done |].
  by destruct (reserved tm lane); simpl.
Qed.

(** C2, as stated, fails: the request for the reverse of a reserved lane is
    stopped by the collision guard before the enqueue step. *)
Lemma exclusive_grant_loser_not_enqueued :
  ¬ exclusive_grant_enqueues_loser (init 0) 1 2 (0, 1) 0 1.
Proof.
  intros H. destruct (H eq_refl eq_refl) as (_ & _ & Hin).
  specialize (Hin eq_refl).
  assert (Hq : queue (request_lane (request_lane (init 0) 1 (0, 1) 0).1 2
                        (reverse (0, 1)) 1).1 (reverse (0, 1)) = [])
    by (vm_compute; reflexivity).
  rewrite Hq in Hin. by apply elem_of_nil in Hin.
Qed.

(** C2 (amended): from a state where a lane and its reverse are free, the
    request for the lane is granted and the following request for its
    reverse is denied: exactly one call returns true. The denied call is
    stopped by the collision guard: it records a BLOCKED event and enqueues
    nobody, so the wait queues are as they were before the two calls. On
    any request, the queue of a lane is left alone or gains the requester
    at its end, where the requester was absent. *)
Theorem exclusive_grant_blocks_loser tm A B L t1 t2 :
  reserved tm L = false → reserved tm (reverse L) = false →
  let first := request_lane tm A L t1 in
  let second := request_lane first.1 B (reverse L) t2 in
  first.2 = true ∧ second.2 = false ∧
  occupied_lanes second.1 = <[L := A]> (occupied_lanes tm) ∧
  waiting_queues second.1 = waiting_queues tm ∧
  event_log second.1
    = Some (default [] (event_log tm) ++ [mkLogEntry t2 BLOCKED B (reverse L)]) ∧
  ∀ (s : t) (C : Z) (M M' : Lane) (now : Q),
    queue (request_lane s C M now).1 M' = queue s M' ∨
    (M' = M ∧ (C ∉ queue s M) ∧
     queue (request_lane s C M now).1 M = queue s M ++ [C]).
Proof.
  intros HL Hrev first second.
  assert (Hfirst : first = ({| occupied_lanes := <[L := A]> (occupied_lanes tm);
                               waiting_queues := waiting_queues tm;
                               occupation_timestamps :=
                                 <[L := t1]> (occupation_timestamps tm);
                               last_deadlock_check := last_deadlock_check tm;
                               event_log := event_log tm |}, true)).
  { subst first. unfold request_lane, detect_collisions. by rewrite Hrev, HL. }
  assert (Hheld : reserved first.1 (reverse (reverse L)) = true).
  { rewrite reverse_involutive, Hfirst. apply reserved_true; simpl.
    rewrite lookup_insert_eq. eauto. }
  assert (Hsecond : second = (_log_event first.1 BLOCKED B (reverse L) t2, false)).
  { subst second. unfold request_lane, detect_collisions. by rewrite Hheld. }
  rewrite Hsecond, Hfirst; simpl. split_and!; try done.
  intros s C M M' now.
  destruct (request_lane_queue s C M now M') as [? | (_ & ? & ? & ?)]; eauto.
Qed.

(** the theorem at the empty arbiter, robots 1 and 2 and lane (0,1) *)
Lemma exclusive_grant_blocks_loser_witness :
  (request_lane (init 0) 1 (0, 1) 0).2 = true ∧
  (request_lane (request_lane (init 0) 1 (0, 1) 0).1 2 (reverse (0, 1)) 1).2
    = false.
Proof.
  destruct (exclusive_grant_blocks_loser (init 0) 1 2 (0, 1) 0 1)
    as (H1 & H2 & _); [reflexivity | reflexivity |].
  exact (conj H1 H2).
Defined.

(** the grant helper of the class does clear the waits: after
    [_grant_access], the robot is in no queue that held it once *)
Lemma list_remove_absent robot_id q :
  NoDup q → robot_id ∉ list_remove robot_id q.
Proof.
  induction 1 as [| x q Hx Hq IH]; simpl; [apply not_elem_of_nil |].
  case_bool_decide as Heq; [by subst |].
  rewrite not_elem_of_cons. split; [by apply not_eq_sym | done].
Qed.

Lemma grant_access_clears_waits tm robot_id lane now L :
  NoDup (queue tm L) → robot_id ∉ queue (_grant_access tm robot_id lane now) L.
Proof.
  unfold queue, _grant_access, _remove_from_other_queues. simpl.
  rewrite lookup_fmap.
  destruct (waiting_queues tm !! L) as [q |]; simpl;
    [apply list_remove_absent | intros _; apply not_elem_of_nil].
Qed.

(** C3 fails on the code: robot 1 waits for lane (0,1), held by robot 2,
    and is then granted lane (2,3); the grant leaves it in the queue of
    lane (0,1). [_grant_access], which removes a granted robot from the
    queues, is not what [request_lane] runs. *)
Theorem grant_keeps_pending_wait :
  (request_lane contended 1 (2, 3) 2).2 = true ∧
  queue (request_lane contended 1 (2, 3) 2).1 (0, 1) = [1] ∧
  queue (_grant_access contended 1 (2, 3) 2) (0, 1) = [] ∧
  ¬ grant_clears_waits contended 1 (2, 3) 2.
Proof.
  assert (Hq : queue (request_lane contended 1 (2, 3) 2).1 (0, 1) = [1])
    by (vm_compute; reflexivity).
  split_and!; [reflexivity | done | vm_compute; reflexivity |].
  intros H. apply (H eq_refl (0, 1)). rewrite Hq. by apply list_elem_of_singleton.
Qed.

(** C4, as stated, fails: lane (0,1) is free but robot 3 still queues for
    it; releasing the lane again pops robot 3. *)
Lemma release_unreserved_pops_queue :
  ¬ release_is_noop released_with_waiter (0, 1).
Proof.
  intros H. specialize (H eq_refl).
  assert (Hbefore : queue released_with_waiter (0, 1) = [3])
    by (vm_compute; reflexivity).
  assert (Hafter : queue (release_lane released_with_waiter (0, 1)) (0, 1) = [])
    by (vm_compute; reflexivity).
  rewrite H in Hafter. congruence.
Qed.

(** C4 (amended): releasing a lane that is not reserved leaves the
    reservation map, the timestamp map, the time of the last check and the
    event log unchanged, and every other lane's wait queue too; the queue of
    the released lane loses its first entry. The whole state is unchanged
    when that queue is empty or missing. *)
Theorem release_unreserved tm L :
  reserved tm L = false →
  occupied_lanes (release_lane tm L) = occupied_lanes tm ∧
  occupation_timestamps (release_lane tm L) = occupation_timestamps tm ∧
  last_deadlock_check (release_lane tm L) = last_deadlock_check tm ∧
  event_log (release_lane tm L) = event_log tm ∧
  (∀ L', L' ≠ L →
     waiting_queues (release_lane tm L) !! L' = waiting_queues tm !! L') ∧
  queue (release_lane tm L) L = tail (queue tm L) ∧
  (queue tm L = [] → release_lane tm L = tm).
Proof.
  intros Hfree. unfold release_lane, queue. rewrite Hfree. simpl.
  split_and!; try done.
  - intros L' Hne.
    destruct (waiting_queues tm !! L) as [[| next_robot rest] |]; try done.
    by rewrite lookup_insert_ne.
  - destruct (waiting_queues tm !! L) as [[| next_robot rest] |] eqn:Hq;
      rewrite ?Hq; try done.
    by rewrite lookup_insert_eq.
  - destruct (waiting_queues tm !! L) as [[| next_robot rest] |]; simpl;
      try done; by destruct tm.
Qed.

(** the theorem at the arbiter [two_queues] and the free lane (0,1):
    robot 3 is popped from its queue, robot 5 stays in the queue of lane
    (2,3) and robot 4 keeps that lane *)
Lemma release_unreserved_witness :
  reserved two_queues (0, 1) = false ∧
  queue two_queues (0, 1) = [3] ∧
  queue (release_lane two_queues (0, 1)) (0, 1) = [] ∧
  waiting_queues (release_lane two_queues (0, 1)) !! (2, 3) = Some [5] ∧
  occupied_lanes (release_lane two_queues (0, 1)) = occupied_lanes two_queues ∧
  occupied_lanes two_queues !! (2, 3) = Some 4.
Proof.
  assert (Hfree : reserved two_queues (0, 1) = false)
    by (vm_compute; reflexivity).
  assert (Hbefore : queue two_queues (0, 1) = [3])
    by (vm_compute; reflexivity).
  assert (Hwaits : waiting_queues two_queues !! (2, 3) = Some [5])
    by (vm_compute; reflexivity).
  destruct (release_unreserved two_queues (0, 1) Hfree)
    as (Hocc & _ & _ & _ & Hother & Hq & _).
  split_and!.
  - exact Hfree.
  - exact Hbefore.
  - rewrite Hq, Hbefore. reflexivity.
  - assert (Hne : ((2, 3) : Lane) ≠ (0, 1)) by discriminate.
    exact (eq_trans (Hother (2, 3) Hne) Hwaits).
  - exact Hocc.
  - vm_compute. reflexivity.
Defined.

End ArbiterFacts.

Module FleetFacts.
Import FleetManager Fleet.

Lemma get_robot_id fm robot_id robot :
  get_robot fm robot_id = Some robot → Robot.id robot = robot_id.
Proof.
  unfold get_robot. intros H. apply find_some in H as [_ H].
  by apply bool_decide_eq_true in H.
Qed.

Lemma find_store_robot rs robot_id robot robot' :
  List.find (λ r, bool_decide (Robot.id r = robot_id)) rs = Some robot →
  Robot.id robot' = robot_id →
  List.find (λ r, bool_decide (Robot.id r = robot_id))
            (store_robot rs robot_id robot') = Some robot'.
Proof.
  intros Hfind Hid. induction rs as [| r rs IH]; simpl in *; [done |].
  destruct (bool_decide (Robot.id r = robot_id)) eqn:Hr; simpl.
  - by rewrite bool_decide_eq_true_2.
  - rewrite Hr. by apply IH.
Qed.

Lemma calculate_path_fields self :
  let self' := (Robot._calculate_path self).1 in
  Robot.id self' = Robot.id self ∧
  Robot.current_lane self' = Robot.current_lane self.
Proof.
  unfold Robot._calculate_path.
  destruct (Robot.destination self) as [d |]; [| done].
  destruct (Robot.nav_graph self) as [g |]; [| done].
  destruct (NavGraph.get_shortest_path g (Robot.current_vertex self) d)
    as [[| v p] | e]; done.
Qed.

(** the robot's own [assign_task]: it keeps the id, and a successful call
    ends with status "moving" and no current lane *)
Lemma robot_assign_task_id self destination_idx now :
  Robot.id (Robot.assign_task self destination_idx now).1 = Robot.id self.
Proof.
  unfold Robot.assign_task.
  destruct (bool_decide (Robot.status self = "charging")
            || bool_decide (Robot.status self = "error")); [done |].
  pose proof (calculate_path_fields
                (Robot.set_destination (Some destination_idx) self)) as [Hid _].
  destruct (Robot._calculate_path _) as [self2 [[] | e]]; simpl in *; [| done].
  by destruct (Robot.path self2).
Qed.

Lemma robot_assign_task_success self destination_idx now :
  (Robot.assign_task self destination_idx now).2 = Ok true →
  Robot.status (Robot.assign_task self destination_idx now).1 = "moving" ∧
  Robot.current_lane (Robot.assign_task self destination_idx now).1 = None.
Proof.
  unfold Robot.assign_task.
  destruct (bool_decide (Robot.status self = "charging")
            || bool_decide (Robot.status self = "error")); [done |].
  destruct (Robot._calculate_path _) as [self2 [[] | e]]; simpl; [| done].
  by destruct (Robot.path self2).
Qed.

(** the robot's own [assign_task] on a destination without a path: the
    call fails and the status is "error" *)
Lemma robot_assign_task_unreachable self destination_idx now g :
  Robot.status self ≠ "charging" → Robot.status self ≠ "error" →
  Robot.nav_graph self = Some g →
  NavGraph.get_shortest_path g (Robot.current_vertex self) destination_idx
    = Ok [] →
  (Robot.assign_task self destination_idx now).2 = Ok false ∧
  Robot.status (Robot.assign_task self destination_idx now).1 = "error".
Proof.
  intros Hc He Hg Hpath. unfold Robot.assign_task, Robot._calculate_path.
  rewrite !bool_decide_eq_false_2 by done. simpl. by rewrite Hg, Hpath.
Qed.

(** the fleet's [assign_task] never touches the traffic manager *)
Lemma assign_task_traffic_manager fm robot_id destination_idx now :
  traffic_manager (assign_task fm robot_id destination_idx now).1
    = traffic_manager fm.
Proof.
  unfold assign_task.
  destruct (get_robot fm robot_id) as [robot |]; [| done].
  destruct (bool_decide (Robot.status robot = "charging")); [done |].
  destruct (Robot.nav_graph robot) as [g |]; [| done].
  destruct (NavGraph.get_shortest_path g _ _) as [[| v p] | e]; try done.
  by destruct (Robot.assign_task robot destination_idx now) as [robot' [ok | e]].
Qed.

(** the scenario [on_lane], and the reassignment that ends in [reassigned] *)
Lemma on_lane_reassigned :
  ∃ robot,
    get_robot on_lane 1 = Some robot ∧
    Robot.status robot = "moving" ∧
    Robot.current_lane robot = Some (0, 1) ∧
    TrafficManager.occupied_lanes (traffic_manager on_lane) !! (0, 1) = Some 1 ∧
    assign_task on_lane 1 1 2
      = (reassigned, Ok (mkTaskResult true (Assignment true) 2 [0; 1])).
Proof.
  destruct (get_robot on_lane 1) as [robot |] eqn:Hget;
    [| vm_compute in Hget; discriminate].
  assert (Hs : Robot.status <$> get_robot on_lane 1 = Some "moving")
    by (vm_compute; reflexivity).
  assert (Hl : Robot.current_lane <$> get_robot on_lane 1 = Some (Some (0, 1)))
    by (vm_compute; reflexivity).
  rewrite Hget in Hs, Hl. simpl in Hs, Hl.
  exists robot. split_and!; [done | congruence | congruence | |];
    vm_compute; reflexivity.
Qed.

(** a successful fleet-level [assign_task] on a moving robot that holds a
    lane clears the robot's [current_lane] and leaves the traffic manager
    as it was: the lane stays reserved under the robot's id *)
Lemma reassignment_keeps_reservation fm robot_id destination_idx now
    robot L fm' res :
  get_robot fm robot_id = Some robot →
  Robot.status robot = "moving" →
  Robot.current_lane robot = Some L →
  TrafficManager.occupied_lanes (traffic_manager fm) !! L = Some robot_id →
  assign_task fm robot_id destination_idx now = (fm', Ok res) →
  success res = true →
  traffic_manager fm' = traffic_manager fm ∧
  TrafficManager.occupied_lanes (traffic_manager fm') !! L = Some robot_id ∧
  ∃ robot', get_robot fm' robot_id = Some robot' ∧
            Robot.status robot' = "moving" ∧
            Robot.current_lane robot' = None.
Proof.
  intros Hget Hstatus Hlane Hheld Hassign Hsuccess.
  pose proof (assign_task_traffic_manager fm robot_id destination_idx now) as Htm.
  rewrite Hassign in Htm; simpl in Htm. rewrite Htm. split_and!; [done.. |].
  unfold assign_task in Hassign. rewrite Hget in Hassign.
  destruct (bool_decide (Robot.status robot = "charging"));
    [by simplify_eq |].
  destruct (Robot.nav_graph robot) as [g |]; [| by simplify_eq].
  destruct (NavGraph.get_shortest_path g _ _) as [[| v p] | e];
    [by simplify_eq | | by simplify_eq].
  pose proof (robot_assign_task_id robot destination_idx now) as Hid.
  pose proof (robot_assign_task_success robot destination_idx now) as Hok.
  destruct (Robot.assign_task robot destination_idx now) as [robot' [ok | e]];
    simplify_eq; simpl in *.
  exists robot'. destruct Hok as [? ?]; [by f_equal |]. split_and!; [| done..].
  unfold get_robot; simpl. eapply find_store_robot; [exact Hget |].
  rewrite Hid. by eapply get_robot_id.
Qed.

(** C5 fails on the code: robot 1 is moving and holds lane (0,1); it is
    sent to vertex 1 and the call succeeds. The robot's [current_lane] is
    cleared, as [_handle_movement] does after its [release_lane], but here
    nothing releases the lane: it stays reserved under the robot's id. *)
Theorem reassignment_orphans_lane :
  (assign_task on_lane 1 1 2).2
    = Ok (mkTaskResult true (Assignment true) 2 [0; 1]) ∧
  Robot.current_lane <$> get_robot on_lane 1 = Some (Some (0, 1)) ∧
  Robot.current_lane <$> get_robot reassigned 1 = Some None ∧
  TrafficManager.occupied_lanes (traffic_manager reassigned) !! (0, 1) = Some 1 ∧
  ¬ reassignment_releases on_lane 1 1 2.
Proof.
  split_and!; [vm_compute; reflexivity .. |].
  intros H.
  destruct on_lane_reassigned as (robot & Hget & Hs & Hl & Hheld & Hrun).
  pose proof (H robot (0, 1) reassigned
                (mkTaskResult true (Assignment true) 2 [0; 1])
                Hget Hs Hl Hheld Hrun eq_refl) as Hfree.
  vm_compute in Hfree. discriminate.
Qed.

(** C6, as stated, fails: vertex 4 cannot be reached from vertex 0; the
    fleet-level call returns the failure result and the robot stays idle. *)
Lemma unreachable_leaves_status :
  ¬ unreachable_sets_error spawned 1 4 0.
Proof.
  intros H.
  destruct (get_robot spawned 1) as [robot |] eqn:Hget;
    [| vm_compute in Hget; discriminate].
  assert (Hg : Robot.nav_graph <$> get_robot spawned 1 = Some (Some corridor))
    by (vm_compute; reflexivity).
  assert (Hv : Robot.current_vertex <$> get_robot spawned 1 = Some 0)
    by (vm_compute; reflexivity).
  assert (Hs : Robot.status <$> get_robot spawned 1 = Some "idle")
    by (vm_compute; reflexivity).
  assert (Hrun : (assign_task spawned 1 4 0).1 = spawned)
    by (vm_compute; reflexivity).
  rewrite Hget in Hg, Hv, Hs. simpl in Hg, Hv, Hs.
  injection Hg as Hg. injection Hv as Hv. injection Hs as Hs.
  assert (Hpath : NavGraph.get_shortest_path corridor
                    (Robot.current_vertex robot) 4 = Ok [])
    by (rewrite Hv; vm_compute; reflexivity).
  destruct (H robot corridor Hget Hg Hpath)
    as (fm' & res & robot' & Hassign & _ & _ & _ & Hget' & Herror).
  rewrite Hassign in Hrun. simpl in Hrun. subst fm'.
  rewrite Hget in Hget'. injection Hget' as <-.
  rewrite Hs in Herror. discriminate.
Qed.

(** C6 (amended): for a robot of the fleet and a destination for which
    the path provider returns the empty path, the fleet-level [assign_task]
    returns success = false, path = [] and estimated_time = 0, and leaves
    the fleet as it was: the robot and its status are unchanged. *)
Theorem unreachable_destination_rejected fm robot_id destination_idx now
    robot g :
  get_robot fm robot_id = Some robot →
  Robot.nav_graph robot = Some g →
  NavGraph.get_shortest_path g (Robot.current_vertex robot) destination_idx
    = Ok [] →
  ∃ res,
    assign_task fm robot_id destination_idx now = (fm, Ok res) ∧
    success res = false ∧ path res = [] ∧ estimated_time res = 0%Q ∧
    get_robot (assign_task fm robot_id destination_idx now).1 robot_id
      = Some robot.
Proof.
  intros Hget Hg Hpath. unfold assign_task. rewrite Hget.
  destruct (bool_decide (Robot.status robot = "charging")).
  - eexists. by split_and!.
  - rewrite Hg, Hpath. eexists. by split_and!.
Qed.

(** the theorem at the fleet [spawned] and vertex 4 *)
Lemma unreachable_destination_rejected_witness :
  ∃ res,
    assign_task spawned 1 4 0 = (spawned, Ok res) ∧
    success res = false ∧ path res = [] ∧ estimated_time res = 0%Q ∧
    get_robot (assign_task spawned 1 4 0).1 1
      = Some (Robot.init 1 0 (Some corridor) Robot.default_config 0).
Proof.
  apply (unreachable_destination_rejected spawned 1 4 0
           (Robot.init 1 0 (Some corridor) Robot.default_config 0) corridor);
    vm_compute; reflexivity.
Defined.

(** a halted robot is left alone by [update], and so is the arbiter *)
Lemma update_halted r tm delta_time now :
  halted r →
  halted (Robot.update r tm delta_time now).1.1 ∧
  (Robot.update r tm delta_time now).1.2 = tm ∧
  (Robot.update r tm delta_time now).2 = Ok false.
Proof.
  intros [Hstatus Hbattery]. unfold Robot.update.
  set (r1 := if Robot._check_imminent_collision r tm delta_time
             then Robot.set_status "emergency_stop" r else r).
  assert (Hs1 : Robot.status r1 = "emergency_stop")
    by (subst r1; by destruct (Robot._check_imminent_collision r tm delta_time)).
  assert (Hb1 : Qltb (Robot.battery r1) (Robot.min_battery (Robot.config r1)) = false)
    by (subst r1; by destruct (Robot._check_imminent_collision r tm delta_time)).
  rewrite Hs1, Hb1. simpl. done.
Qed.

Lemma update_each_halted rs tm delta_time now :
  Forall halted rs →
  Forall halted (update_each rs tm delta_time now).1.1 ∧
  (update_each rs tm delta_time now).1.2 = tm ∧
  (update_each rs tm delta_time now).2 = Ok ().
Proof.
  induction 1 as [| r rs Hr Hrs IH]; simpl; [done |].
  destruct (update_halted r tm delta_time now Hr) as (Hr' & Htm & Hres).
  destruct (Robot.update r tm delta_time now) as [[r' tm'] res].
  simpl in *. subst tm' res.
  destruct IH as (Hrs' & Htm' & Hres').
  destruct (update_each rs tm delta_time now) as [[rs' tm''] res'].
  simpl in *. subst. split_and!; [by constructor | done..].
Qed.

Lemma run_ticks_halted ticks fm :
  Forall halted (robots fm) →
  traffic_manager (run_ticks fm ticks).1 = traffic_manager fm ∧
  (run_ticks fm ticks).2 = Ok ().
Proof.
  revert fm. induction ticks as [| [delta_time now] ticks IH]; intros fm Hfm;
    simpl; [done |].
  unfold update_robots.
  destruct (update_each_halted (robots fm) (traffic_manager fm) delta_time now Hfm)
    as (Hrs & Htm & Hres).
  destruct (update_each (robots fm) (traffic_manager fm) delta_time now)
    as [[rs tm] res].
  simpl in *. subst tm res.
  by destruct (IH (mkFleetManager rs (traffic_manager fm) (selected_robot fm)
                     (next_id fm)) Hrs) as [-> ->].
Qed.

(** [_perform_periodic_checks], were it called, frees a stale lane: more
    than 2 seconds after the last check, a lane reserved more than 5 seconds
    ago is not reserved afterwards *)
Lemma release_all_frees lanes tm L :
  L ∈ lanes ∨ TrafficManager.reserved tm L = false →
  TrafficManager.reserved (foldl TrafficManager.release_lane tm lanes) L = false.
Proof.
  revert tm. induction lanes as [| lane lanes IH]; intros tm H; simpl.
  - destruct H as [H | H]; [by apply elem_of_nil in H | done].
  - apply IH. destruct (decide (L = lane)) as [-> | Hne].
    + right. apply ArbiterFacts.reserved_false.
      rewrite ArbiterFacts.release_lane_occupied. apply lookup_delete_eq.
    + destruct H as [H | H].
      * left. apply elem_of_cons in H as [? | ?]; done.
      * right. apply ArbiterFacts.reserved_false.
        rewrite ArbiterFacts.release_lane_occupied.
        rewrite lookup_delete_ne by done. by apply ArbiterFacts.reserved_false.
Qed.

Lemma periodic_checks_free_stale tm now L granted :
  (2 < now - TrafficManager.last_deadlock_check tm)%Q →
  TrafficManager.occupation_timestamps tm !! L = Some granted →
  (5 < now - granted)%Q →
  TrafficManager.reserved (TrafficManager._perform_periodic_checks tm now) L
    = false.
Proof.
  intros Hdue Hts Hstale. unfold TrafficManager._perform_periodic_checks.
  rewrite (proj2 (Qltb_true _ _) Hdue).
  apply release_all_frees. left. unfold TrafficManager.stale_lanes. simpl.
  apply list_elem_of_fmap. exists (L, granted). split; [done |].
  apply list_elem_of_filter. split.
  - simpl. by apply Qltb_true.
  - by apply elem_of_map_to_list.
Qed.

(** C7 fails on the code: nothing that ticks the fleet calls
    [_perform_periodic_checks]. In the scenario [stuck], lane (0,1) was
    reserved at time 3/2 and is never released: after any run of ticks,
    at whatever times, it is still reserved with that timestamp, and
    every request for it is denied. *)
Theorem stale_lane_never_reclaimed (ticks : list (Q * Q)) :
  let tm := traffic_manager (run_ticks stuck ticks).1 in
  (run_ticks stuck ticks).2 = Ok () ∧
  TrafficManager.occupation_timestamps tm !! (0, 1) = Some (3 # 2)%Q ∧
  TrafficManager.reserved tm (0, 1) = true ∧
  ∀ (robot_id : Z) (now : Q),
    (TrafficManager.request_lane tm robot_id (0, 1) now).2 = false.
Proof.
  assert (Hhalted : Forall halted (robots stuck)).
  { assert (Hrs : (λ r, (Robot.status r,
                         Qltb (Robot.battery r) (Robot.min_battery (Robot.config r))))
                    <$> robots stuck = [("emergency_stop", false)])
      by (vm_compute; reflexivity).
    destruct (robots stuck) as [| r [| r' rs]]; try discriminate Hrs.
    injection Hrs as Hstatus Hbattery.
    constructor; [by split | constructor]. }
  destruct (run_ticks_halted ticks stuck Hhalted) as [Htm Hres].
  simpl. rewrite Htm, Hres.
  assert (Hheld : TrafficManager.reserved (traffic_manager stuck) (0, 1) = true)
    by (vm_compute; reflexivity).
  assert (Hfree : TrafficManager.reserved (traffic_manager stuck) (reverse (0, 1))
                  = false) by (vm_compute; reflexivity).
  split_and!; [done | vm_compute; reflexivity | done |].
  intros robot_id now.
  unfold TrafficManager.request_lane, TrafficManager.detect_collisions.
  by rewrite Hfree, Hheld.
Qed.




(** the path provider raises for a destination that is no node of the
    graph, and [get_shortest_path] lets the exception through *)
Lemma get_shortest_path_off_graph g start end_ :
  end_ ∉ nx.nodes (NavGraph.graph g) →
  NavGraph.get_shortest_path g start end_ = Raise NodeNotFound.
Proof.
  intros Hout. unfold NavGraph.get_shortest_path, nx.astar_path.
  rewrite (bool_decide_eq_false_2 _ Hout). by rewrite andb_false_r.
Qed.

Lemma assign_task_off_graph fm robot_id destination_idx now robot g :
  get_robot fm robot_id = Some robot →
  Robot.status robot ≠ "charging" →
  Robot.nav_graph robot = Some g →
  destination_idx ∉ nx.nodes (NavGraph.graph g) →
  assign_task fm robot_id destination_idx now = (fm, Raise NodeNotFound).
Proof.
  intros Hget Hstatus Hg Hout. unfold assign_task.
  rewrite Hget, (bool_decide_eq_false_2 _ Hstatus), Hg.
  by rewrite get_shortest_path_off_graph.
Qed.

(** C9 fails on the code: vertex 99 is not in the graph; the fleet-level
    [assign_task] ends with the NodeNotFound exception of the path provider,
    which [get_shortest_path] does not catch, and returns no result. *)
Theorem assign_task_unknown_vertex_raises :
  NavGraph.get_shortest_path corridor 0 99 = Raise NodeNotFound ∧
  assign_task spawned 1 99 0 = (spawned, Raise NodeNotFound).
Proof. split; vm_compute; reflexivity. Qed.

(** C10, as stated, fails: for the charging robot [charging_on_lane] the
    collision check fires first and overwrites the status, so [update]
    returns normally. *)
Lemma charging_update_returns :
  ¬ update_raises_when_charging_or_low charging_on_lane next_lane_taken
      (1 # 2) 12.
Proof.
  intros [H _]. destruct (H eq_refl) as [attr Hraise].
  assert (Hret : (Robot.update charging_on_lane next_lane_taken (1 # 2) 12).2
                 = Ok false) by (vm_compute; reflexivity).
  rewrite Hret in Hraise. discriminate.
Qed.

(** C10 (amended): [update] raises AttributeError for every charging robot
    for which the collision check at the start of the tick does not fire
    or whose battery is below the configured minimum, and for every robot
    whose battery is below the configured minimum while its status is
    neither "charging" nor "error". *)
Theorem update_raises_attribute_error self tm delta_time now :
  (Robot.status self = "charging" ∧
   (Robot._check_imminent_collision self tm delta_time = false ∨
    (Robot.battery self < Robot.min_battery (Robot.config self))%Q)) ∨
  ((Robot.battery self < Robot.min_battery (Robot.config self))%Q ∧
   Robot.status self ≠ "charging" ∧ Robot.status self ≠ "error") →
  update_raises self tm delta_time now.
Proof.
  unfold update_raises, Robot.update.
  destruct (Robot._check_imminent_collision self tm delta_time) eqn:Hcheck.
  - intros [[_ [? | Hlow]] | [Hlow _]]; [done | |];
      apply Qltb_true in Hlow; simpl; rewrite Hlow; eauto.
  - intros [[Hcharging _] | (Hlow & Hc & He)].
    + rewrite (bool_decide_eq_true_2 _ Hcharging). eauto.
    + rewrite (bool_decide_eq_false_2 _ Hc), (bool_decide_eq_false_2 _ He).
      apply Qltb_true in Hlow. rewrite Hlow. eauto.
Qed.

(** the theorem at a charging robot that holds no lane *)
Lemma update_raises_attribute_error_witness :
  update_raises
    (Robot.set_status "charging"
       (Robot.init 1 0 (Some corridor) Robot.default_config 0))
    (TrafficManager.init 0) (1 # 2) 1.
Proof.
  apply update_raises_attribute_error.
  left. split; [reflexivity | left; reflexivity].
Defined.

End FleetFacts.

(** * Further properties of the arbiter *)

Module ArbiterMore.
Import TrafficManager Arbiter Invariants ArbiterFacts.

Lemma reserved_available tm lane :
  is_lane_available tm lane = true ↔
  occupied_lanes tm !! lane = None ∧ occupied_lanes tm !! reverse lane = None.
Proof.
  unfold is_lane_available.
  rewrite andb_true_iff, !negb_true_iff, !reserved_false. done.
Qed.

(** the outcome of a request and what it writes *)
Lemma request_lane_effect tm robot_id lane now :
  (request_lane tm robot_id lane now).2 = is_lane_available tm lane ∧
  (request_lane tm robot_id lane now).2 = _is_lane_available tm lane ∧
  (if (request_lane tm robot_id lane now).2
   then occupied_lanes (request_lane tm robot_id lane now).1
          = <[lane := robot_id]> (occupied_lanes tm) ∧
        occupation_timestamps (request_lane tm robot_id lane now).1
          = <[lane := now]> (occupation_timestamps tm) ∧
        waiting_queues (request_lane tm robot_id lane now).1
          = waiting_queues tm ∧
        event_log (request_lane tm robot_id lane now).1 = event_log tm
   else occupied_lanes (request_lane tm robot_id lane now).1
          = occupied_lanes tm ∧
        occupation_timestamps (request_lane tm robot_id lane now).1
          = occupation_timestamps tm).
Proof.
  unfold request_lane, detect_collisions, is_lane_available, _is_lane_available.
  destruct (reserved tm (reverse lane)); simpl.
  - by rewrite andb_false_r.
  - by destruct (reserved tm lane); simpl.
Qed.

(** X1: [request_lane] returns true exactly when [is_lane_available] holds
    (and [_is_lane_available], the same test). A granted request reserves
    the lane for the requester with the time of the call and touches
    neither the queues nor the log; a denied one touches neither the
    reservations nor the timestamps. *)
Theorem request_lane_granted_iff_available tm robot_id lane now :
  (request_lane tm robot_id lane now).2 = is_lane_available tm lane ∧
  (request_lane tm robot_id lane now).2 = _is_lane_available tm lane ∧
  (if (request_lane tm robot_id lane now).2
   then occupied_lanes (request_lane tm robot_id lane now).1
          = <[lane := robot_id]> (occupied_lanes tm) ∧
        occupation_timestamps (request_lane tm robot_id lane now).1
          = <[lane := now]> (occupation_timestamps tm) ∧
        waiting_queues (request_lane tm robot_id lane now).1
          = waiting_queues tm ∧
        event_log (request_lane tm robot_id lane now).1 = event_log tm
   else occupied_lanes (request_lane tm robot_id lane now).1
          = occupied_lanes tm ∧
        occupation_timestamps (request_lane tm robot_id lane now).1
          = occupation_timestamps tm).
Proof.
  unfold request_lane, detect_collisions, is_lane_available, _is_lane_available.
  destruct (reserved tm (reverse lane)); simpl.
  - by rewrite andb_false_r.
  - by destruct (reserved tm lane); simpl.
Qed.

(** X2: [request_lane] never takes a lane from its owner: a lane that is
    reserved before the call is reserved for the same robot after it,
    whoever asks for whatever lane. *)
Theorem request_lane_keeps_owner tm robot_id lane now L owner :
  occupied_lanes tm !! L = Some owner →
  occupied_lanes (request_lane tm robot_id lane now).1 !! L = Some owner.
Proof.
  intros Howner.
  destruct (request_lane_occupied tm robot_id lane now)
    as [[_ ->] | (_ & Hfree & _ & ->)]; [done |].
  apply reserved_false in Hfree.
  rewrite lookup_insert_ne; [done | congruence].
Qed.

(** the theorem at the arbiter [contended]: robot 2 keeps lane (0,1) when
    robot 1 asks for it again *)
Lemma request_lane_keeps_owner_witness :
  occupied_lanes (request_lane contended 1 (0, 1) 5).1 !! (0, 1) = Some 2.
Proof.
  apply request_lane_keeps_owner. vm_compute. reflexivity.
Defined.

(** the invariants are kept by every operation *)
Lemma stamped_init started : stamped (init started).
Proof. intros L. simpl. by rewrite !lookup_empty. Qed.

Lemma stamped_request tm robot_id lane now :
  stamped tm → stamped (request_lane tm robot_id lane now).1.
Proof.
  intros Hst L.
  pose proof (request_lane_effect tm robot_id lane now)
    as (_ & _ & H).
  destruct (request_lane tm robot_id lane now).2.
  - destruct H as (-> & -> & _).
    destruct (decide (lane = L)) as [-> | Hne].
    + rewrite !lookup_insert_eq. split; eauto.
    + rewrite !lookup_insert_ne by done. apply Hst.
  - destruct H as [-> ->]. apply Hst.
Qed.

Lemma release_lane_timestamps tm lane :
  stamped tm →
  occupation_timestamps (release_lane tm lane)
    = delete lane (occupation_timestamps tm).
Proof.
  intros Hst. unfold release_lane.
  destruct (reserved tm lane) eqn:Hl; simpl; [done |].
  apply reserved_false in Hl. rewrite delete_id; [done |].
  apply eq_None_not_Some. rewrite <- (Hst lane). by rewrite Hl; intros [].
Qed.

Lemma stamped_release tm lane : stamped tm → stamped (release_lane tm lane).
Proof.
  intros Hst L.
  rewrite release_lane_occupied, release_lane_timestamps by done.
  destruct (decide (lane = L)) as [-> | Hne].
  - rewrite !lookup_delete_eq. split; intros []; done.
  - rewrite !lookup_delete_ne by done. apply Hst.
Qed.

Lemma stamped_release_all lanes tm :
  stamped tm → stamped (foldl release_lane tm lanes).
Proof.
  revert tm. induction lanes as [| lane lanes IH]; intros tm Hst; simpl; [done |].
  by apply IH, stamped_release.
Qed.

Lemma stamped_resolve_stale lanes tm now :
  stamped tm → stamped (resolve_stale tm lanes now).1.
Proof.
  revert tm. induction lanes as [| lane lanes IH]; intros tm Hst; simpl; [done |].
  destruct (occupied_lanes tm !! lane) as [owner |]; [| done].
  apply IH. by apply (stamped_release (_log_event tm TIMEOUT owner lane now)).
Qed.

Lemma stamped_apply tm op : stamped tm → stamped (apply tm op).
Proof.
  intros Hst. destruct op as [robot_id lane now | lane | now | now |]; simpl.
  - by apply stamped_request.
  - by apply stamped_release.
  - unfold _perform_periodic_checks.
    destruct (Qltb 2 _); [| done]. by apply stamped_release_all.
  - by apply stamped_resolve_stale.
  - done.
Qed.

Lemma stamped_run ops tm : stamped tm → stamped (run tm ops).
Proof.
  revert tm. induction ops as [| op ops IH]; intros tm Hst; simpl; [done |].
  by apply IH, stamped_apply.
Qed.

Lemma stamped_reachable tm : reachable tm → stamped tm.
Proof. intros (started & ops & ->). apply stamped_run, stamped_init. Qed.

(** X3: in every state reachable by requests, releases, stale reclamation
    and queue clearing from the empty arbiter, a lane has a timestamp
    exactly when it is reserved. *)
Theorem timestamps_follow_reservations tm L :
  reachable tm →
  (is_Some (occupied_lanes tm !! L) ↔ is_Some (occupation_timestamps tm !! L)).
Proof. intros (started & ops & ->). apply stamped_run, stamped_init. Qed.

(** the theorem at the arbiter [contended] and lane (0,1) *)
Lemma timestamps_follow_reservations_witness :
  is_Some (occupied_lanes contended !! (0, 1)) ↔
  is_Some (occupation_timestamps contended !! (0, 1)).
Proof.
  apply timestamps_follow_reservations.
  exists 0%Q, [Request 2 (0, 1) 0; Request 1 (0, 1) 1]. reflexivity.
Defined.

Lemma nodup_init started : queues_nodup (init started).
Proof. intros L. unfold queue. simpl. rewrite lookup_empty. constructor. Qed.

Lemma nodup_request tm robot_id lane now :
  queues_nodup tm → queues_nodup (request_lane tm robot_id lane now).1.
Proof.
  intros Hq L.
  destruct (request_lane_queue tm robot_id lane now L)
    as [-> | (_ & -> & Hnew & ->)]; [done |].
  apply NoDup_app. split_and!; [done | | apply NoDup_singleton].
  intros x Hx Hx'. apply list_elem_of_singleton in Hx'. by subst.
Qed.

Lemma release_lane_queue tm lane L :
  queue (release_lane tm lane) L
    = if decide (L = lane) then tail (queue tm lane) else queue tm L.
Proof.
  unfold release_lane, queue.
  destruct (reserved tm lane); simpl;
    (destruct (decide (L = lane)) as [-> | Hne];
     [ destruct (waiting_queues tm !! lane) as [[| next_robot rest] |] eqn:Hl;
         rewrite ?Hl; try done; by rewrite lookup_insert_eq
     | destruct (waiting_queues tm !! lane) as [[| next_robot rest] |];
         try done; by rewrite lookup_insert_ne ]).
Qed.

Lemma nodup_release tm lane : queues_nodup tm → queues_nodup (release_lane tm lane).
Proof.
  intros Hq L. rewrite release_lane_queue. case_decide; [| done].
  specialize (Hq lane). destruct (queue tm lane); [done |].
  by apply NoDup_cons in Hq as [_ ?].
Qed.

Lemma nodup_release_all lanes tm :
  queues_nodup tm → queues_nodup (foldl release_lane tm lanes).
Proof.
  revert tm. induction lanes as [| lane lanes IH]; intros tm Hq; simpl; [done |].
  by apply IH, nodup_release.
Qed.

Lemma nodup_resolve_stale lanes tm now :
  queues_nodup tm → queues_nodup (resolve_stale tm lanes now).1.
Proof.
  revert tm. induction lanes as [| lane lanes IH]; intros tm Hq; simpl; [done |].
  destruct (occupied_lanes tm !! lane) as [owner |]; [| done].
  apply IH. by apply (nodup_release (_log_event tm TIMEOUT owner lane now)).
Qed.

Lemma nodup_apply tm op : queues_nodup tm → queues_nodup (apply tm op).
Proof.
  intros Hq. destruct op as [robot_id lane now | lane | now | now |]; simpl.
  - by apply nodup_request.
  - by apply nodup_release.
  - unfold _perform_periodic_checks.
    destruct (Qltb 2 _); [| done]. by apply nodup_release_all.
  - by apply nodup_resolve_stale.
  - intros L. unfold queue. simpl. rewrite lookup_empty. constructor.
Qed.

Lemma nodup_run ops tm : queues_nodup tm → queues_nodup (run tm ops).
Proof.
  revert tm. induction ops as [| op ops IH]; intros tm Hq; simpl; [done |].
  by apply IH, nodup_apply.
Qed.

(** X4: in every reachable state of the arbiter, no robot is twice in the
    wait queue of a lane. *)
Theorem wait_queues_have_no_duplicates tm L :
  reachable tm → NoDup (queue tm L).
Proof. intros (started & ops & ->). apply nodup_run, nodup_init. Qed.

(** the theorem at the arbiter [released_with_waiter] and lane (0,1) *)
Lemma wait_queues_have_no_duplicates_witness :
  NoDup (queue released_with_waiter (0, 1)).
Proof.
  apply wait_queues_have_no_duplicates.
  exists 0%Q, [Request 1 (0, 1) 0; Request 2 (0, 1) 1; Request 3 (0, 1) 2;
               Release (0, 1)].
  reflexivity.
Defined.

(** X5: in a reachable state, a granted request followed by the release of
    the lane gives back the reservation map and the timestamp map of
    before; the release also pops the head of the lane's wait queue and
    leaves the other queues alone. *)
Theorem grant_then_release_restores tm robot_id lane now :
  reachable tm →
  is_lane_available tm lane = true →
  let tm' := release_lane (request_lane tm robot_id lane now).1 lane in
  occupied_lanes tm' = occupied_lanes tm ∧
  occupation_timestamps tm' = occupation_timestamps tm ∧
  queue tm' lane = tail (queue tm lane) ∧
  ∀ L, L ≠ lane → queue tm' L = queue tm L.
Proof.
  intros Hr Hfree tm'.
  pose proof (request_lane_effect tm robot_id lane now)
    as (Hres & _ & H).
  rewrite Hres, Hfree in H. destruct H as (Hocc & Hts & Hq & _).
  apply reserved_available in Hfree as [Hlane _].
  assert (Hstamp : occupation_timestamps tm !! lane = None).
  { apply eq_None_not_Some. rewrite <- (stamped_reachable tm Hr lane).
    rewrite Hlane. by intros []. }
  assert (Hst' : stamped (request_lane tm robot_id lane now).1)
    by by apply stamped_request, stamped_reachable.
  subst tm'. split_and!.
  - by rewrite release_lane_occupied, Hocc, delete_insert_id.
  - by rewrite release_lane_timestamps, Hts, delete_insert_id.
  - rewrite release_lane_queue. case_decide; [| done].
    unfold queue. by rewrite Hq.
  - intros L Hne. rewrite release_lane_queue. case_decide; [done |].
    unfold queue. by rewrite Hq.
Qed.

(** the theorem at the arbiter [contended] and the free lane (2,3) *)
Lemma grant_then_release_restores_witness :
  occupied_lanes (release_lane (request_lane contended 1 (2, 3) 2).1 (2, 3))
    = occupied_lanes contended.
Proof.
  apply (grant_then_release_restores contended 1 (2, 3) 2).
  - exists 0%Q, [Request 2 (0, 1) 0; Request 1 (0, 1) 1]. reflexivity.
  - vm_compute. reflexivity.
Defined.

(** the reservations after a list of releases *)
Lemma release_all_occupied lanes tm L :
  occupied_lanes (foldl release_lane tm lanes) !! L
    = if decide (L ∈ lanes) then None else occupied_lanes tm !! L.
Proof.
  revert tm. induction lanes as [| lane lanes IH]; intros tm.
  - case_decide as Hin; [by apply elem_of_nil in Hin | done].
  - cbn [foldl]. rewrite IH, release_lane_occupied.
    destruct (decide (L ∈ lanes)) as [Hin | Hout].
    + case_decide as Hin'; [done |]. exfalso. apply Hin'. by right.
    + destruct (decide (L = lane)) as [-> | Hne].
      * rewrite lookup_delete_eq. case_decide as Hin'; [done |].
        exfalso. apply Hin'. by left.
      * rewrite lookup_delete_ne by done.
        case_decide as Hin'; [| done].
        apply elem_of_cons in Hin' as [? | ?]; done.
Qed.

Lemma elem_of_stale_lanes tm now L :
  L ∈ stale_lanes tm now ↔ stale tm now L.
Proof.
  unfold stale_lanes, stale. rewrite list_elem_of_fmap. split.
  - intros ([L' granted] & -> & Hin). simpl.
    apply list_elem_of_filter in Hin as [Hold Hin]. simpl in Hold.
    apply elem_of_map_to_list in Hin. apply Qltb_true in Hold. eauto.
  - intros (granted & Hts & Hold). exists (L, granted). split; [done |].
    apply list_elem_of_filter. split; [by apply Qltb_true |].
    by apply elem_of_map_to_list.
Qed.

(** X6: [_perform_periodic_checks] does nothing until more than 2 seconds
    have passed since the last check. Once they have, it records the time
    of the check, frees every lane whose timestamp is more than 5 seconds
    old and keeps every other reservation with its owner. *)
Theorem periodic_checks_reclaim_stale_only tm now L :
  (if Qltb 2 (now - last_deadlock_check tm)
   then last_deadlock_check (_perform_periodic_checks tm now) = now ∧
        (stale tm now L →
         occupied_lanes (_perform_periodic_checks tm now) !! L = None) ∧
        (¬ stale tm now L →
         occupied_lanes (_perform_periodic_checks tm now) !! L
           = occupied_lanes tm !! L)
   else _perform_periodic_checks tm now = tm).
Proof.
  unfold _perform_periodic_checks.
  destruct (Qltb 2 (now - last_deadlock_check tm)); [| done].
  set (tm1 := {| occupied_lanes := occupied_lanes tm;
                 waiting_queues := waiting_queues tm;
                 occupation_timestamps := occupation_timestamps tm;
                 last_deadlock_check := now;
                 event_log := event_log tm |}).
  assert (Hstale : L ∈ stale_lanes tm1 now ↔ stale tm now L)
    by apply (elem_of_stale_lanes tm1 now L).
  split_and!.
  - generalize (stale_lanes tm1 now). intros lanes.
    assert (Hlast : last_deadlock_check tm1 = now) by done.
    revert Hlast. generalize tm1. clear.
    induction lanes as [| lane lanes IH]; intros tm1 Hlast; simpl; [done |].
    apply IH. unfold release_lane. by destruct (reserved tm1 lane).
  - intros Hs. rewrite release_all_occupied.
    case_decide as Hin; [done |]. by apply Hstale in Hs.
  - intros Hs. rewrite release_all_occupied.
    case_decide as Hin; [| done]. by apply Hstale in Hin.
Qed.

(** what [resolve_stale] does when every lane of the list is reserved *)
Lemma resolve_stale_reserved lanes tm now :
  NoDup lanes →
  (∀ l, l ∈ lanes → is_Some (occupied_lanes tm !! l)) →
  (resolve_stale tm lanes now).2 = Ok () ∧
  (∀ L, occupied_lanes (resolve_stale tm lanes now).1 !! L
        = if decide (L ∈ lanes) then None else occupied_lanes tm !! L) ∧
  ∃ entries,
    event_log (resolve_stale tm lanes now).1
      = (if lanes is [] then event_log tm
         else Some (default [] (event_log tm) ++ entries)) ∧
    (le_lane <$> entries) = lanes ∧
    Forall (λ e, le_event e = TIMEOUT ∧ le_timestamp e = now ∧
                 occupied_lanes tm !! le_lane e = Some (le_robot_id e)) entries.
Proof.
  revert tm. induction lanes as [| lane lanes IH]; intros tm Hnd Hres;
    cbn [resolve_stale].
  - split_and!; [done | |].
    + intros L. case_decide as Hin; [by apply elem_of_nil in Hin | done].
    + exists []. by split_and!.
  - apply NoDup_cons in Hnd as [Hfresh Hnd].
    destruct (Hres lane) as [owner Howner]; [by left |]. rewrite Howner.
    set (tm1 := release_lane (_log_event tm TIMEOUT owner lane now) lane).
    assert (Hocc1 : occupied_lanes tm1 = delete lane (occupied_lanes tm))
      by (subst tm1; by rewrite release_lane_occupied).
    assert (Hlog1 : event_log tm1
                    = Some (default [] (event_log tm)
                              ++ [mkLogEntry now TIMEOUT owner lane]))
      by (subst tm1; unfold release_lane;
          by destruct (reserved _ lane)).
    destruct (IH tm1 Hnd) as (Hok & Hocc & entries & Hlog & Hlanes & Hall).
    { intros l Hl. rewrite Hocc1, lookup_delete_ne by (intros ->; done).
      apply Hres. by right. }
    split_and!; [done | |].
    + intros L. rewrite Hocc, Hocc1.
      destruct (decide (L ∈ lanes)) as [Hin | Hout].
      * case_decide as Hin'; [done |]. exfalso. apply Hin'. by right.
      * destruct (decide (L = lane)) as [-> | Hne].
        -- rewrite lookup_delete_eq. case_decide as Hin'; [done |].
           exfalso. apply Hin'. by left.
        -- rewrite lookup_delete_ne by done.
           case_decide as Hin'; [| done].
           apply elem_of_cons in Hin' as [? | ?]; done.
    + exists (mkLogEntry now TIMEOUT owner lane :: entries). split_and!.
      * rewrite Hlog, Hlog1. destruct lanes; simpl.
        -- destruct entries; [done | discriminate].
        -- by rewrite <- app_assoc.
      * by rewrite fmap_cons, Hlanes.
      * constructor; [done |].
        eapply Forall_impl; [exact Hall |]. intros e (? & ? & He).
        split_and!; [done.. |].
        rewrite Hocc1 in He. by apply lookup_delete_Some in He as [_ ?].
Qed.

Lemma stale_lanes_nodup tm now : NoDup (stale_lanes tm now).
Proof.
  unfold stale_lanes.
  eapply NoDup_fmap_fst.
  - intros L x y Hx Hy.
    apply list_elem_of_filter in Hx as [_ Hx], Hy as [_ Hy].
    apply elem_of_map_to_list in Hx, Hy. congruence.
  - apply NoDup_filter, NoDup_map_to_list.
Qed.

(** X7: in a reachable state [_resolve_issues] raises no KeyError. It
    frees every lane whose timestamp is more than 5 seconds old, keeps
    every other reservation with its owner, and adds to the event log one
    TIMEOUT entry per freed lane, naming the robot that held it; the
    lanes of the new entries are the stale lanes up to their order. *)
Theorem resolve_issues_reclaims_stale tm now :
  reachable tm →
  (_resolve_issues tm now).2 = Ok () ∧
  (∀ L, stale tm now L → occupied_lanes (_resolve_issues tm now).1 !! L = None) ∧
  (∀ L, ¬ stale tm now L →
        occupied_lanes (_resolve_issues tm now).1 !! L = occupied_lanes tm !! L) ∧
  ∃ entries,
    default [] (event_log (_resolve_issues tm now).1)
      = default [] (event_log tm) ++ entries ∧
    (le_lane <$> entries) ≡ₚ stale_lanes tm now ∧
    Forall (λ e, le_event e = TIMEOUT ∧ le_timestamp e = now ∧
                 occupied_lanes tm !! le_lane e = Some (le_robot_id e)) entries.
Proof.
  intros Hr. unfold _resolve_issues.
  destruct (resolve_stale_reserved (stale_lanes tm now) tm now)
    as (Hok & Hocc & entries & Hlog & Hlanes & Hall).
  { apply stale_lanes_nodup. }
  { intros l Hl. apply elem_of_stale_lanes in Hl as (granted & Hts & _).
    apply (stamped_reachable tm Hr l). eauto. }
  split_and!; [done | | |].
  - intros L Hs. rewrite Hocc.
    case_decide as Hin; [done |]. by apply elem_of_stale_lanes in Hs.
  - intros L Hs. rewrite Hocc.
    case_decide as Hin; [| done]. by apply elem_of_stale_lanes in Hin.
  - exists entries. split_and!; [| by rewrite Hlanes | done].
    rewrite Hlog. destruct (stale_lanes tm now); simpl; [| done].
    destruct entries; [by rewrite app_nil_r | discriminate].
Qed.

(** the theorem at the arbiter [contended], ten seconds on: lane (0,1),
    reserved at time 0, is freed *)
Lemma resolve_issues_reclaims_stale_witness :
  (_resolve_issues contended 10).2 = Ok () ∧
  occupied_lanes contended !! (0, 1) = Some 2 ∧
  occupied_lanes (_resolve_issues contended 10).1 !! (0, 1) = None.
Proof.
  assert (Hr : reachable contended)
    by (exists 0%Q, [Request 2 (0, 1) 0; Request 1 (0, 1) 1]; reflexivity).
  assert (Hheld : occupied_lanes contended !! (0, 1) = Some 2)
    by (vm_compute; reflexivity).
  assert (Hstale : stale contended 10 (0, 1))
    by (exists 0%Q; split; vm_compute; reflexivity).
  destruct (resolve_issues_reclaims_stale contended 10 Hr) as (Hok & Hfreed & _).
  split_and!; [exact Hok | exact Hheld | exact (Hfreed (0, 1) Hstale)].
Defined.

(** X8: in a reachable state, every pair that [detect_collisions()]
    reports is a lane from a vertex to itself, paired with itself: between
    two different vertices no collision is ever reported. *)
Theorem detect_collisions_reports_loops_only tm pair :
  reachable tm →
  pair ∈ detect_collisions tm None →
  pair.1.1 = pair.1.2 ∧ pair.2 = pair.1.
Proof.
  intros (started & ops & ->) Hin. simpl in Hin.
  apply list_elem_of_fmap in Hin as (L & -> & Hin).
  apply list_elem_of_filter in Hin as [Hrev Hin].
  apply elem_of_elements, elem_of_dom in Hin.
  apply reserved_true in Hrev.
  destruct (decide (L.1 = L.2)) as [Heq | Hne].
  - split; [done |]. destruct L as [a b]; simpl in *. by subst.
  - pose proof (exclusive_run ops (init started) exclusive_empty L Hne Hin)
      as Hfree.
    rewrite Hfree in Hrev. by destruct Hrev.
Qed.

(** the theorem at the arbiter in which robot 1 holds lane (3,3) *)
Lemma detect_collisions_reports_loops_only_witness :
  ((3, 3), (3, 3)).1.1 = ((3, 3), (3, 3)).1.2 ∧
  ((3, 3), (3, 3)).2 = ((3, 3), (3, 3)).1.
Proof.
  apply (detect_collisions_reports_loops_only
           (run (init 0) [Request 1 (3, 3) 0]) ((3, 3), (3, 3))).
  - exists 0%Q, [Request 1 (3, 3) 0]. reflexivity.
  - vm_compute. apply list_elem_of_singleton. reflexivity.
Defined.

(** X9: [resolve_deadlocks] ends with KeyError as soon as it has released
    a lane, because it reads the owner of the lane after the release: for
    every order of the keys, the first lane whose timestamp (0 when
    missing) is more than 5 seconds old is released and the call raises;
    when no lane is that old the call returns and changes nothing. *)
Theorem resolve_deadlocks_raises_after_release tm keys now :
  resolve_deadlocks_over tm keys now
    = match List.find
              (λ l, Qltb 5 (now - default 0%Q (occupation_timestamps tm !! l)))
              keys with
      | Some lane => (release_lane tm lane, Raise KeyError)
      | None => (tm, Ok ())
      end.
Proof.
  induction keys as [| lane keys IH]; simpl; [done |].
  destruct (Qltb 5 (now - default 0%Q (occupation_timestamps tm !! lane)));
    [| done].
  by rewrite release_lane_occupied, lookup_delete_eq.
Qed.

Lemma list_remove_other robot_id other q :
  other ≠ robot_id → (other ∈ list_remove robot_id q ↔ other ∈ q).
Proof.
  intros Hne. induction q as [| x q IH]; [done |]. cbn [list_remove].
  case_bool_decide as Hx.
  - subst x. rewrite elem_of_cons. split; [by right | by intros [? | ?]].
  - rewrite !elem_of_cons, IH. done.
Qed.

(** X25: in a reachable state, [_grant_access] reserves the lane for the
    robot with the time of the call and takes the robot out of every wait
    queue; the other robots stay in the queues they were in. *)
Theorem grant_access_reserves_and_dequeues tm robot_id lane now L :
  reachable tm →
  occupied_lanes (_grant_access tm robot_id lane now) !! lane = Some robot_id ∧
  occupation_timestamps (_grant_access tm robot_id lane now) !! lane = Some now ∧
  (robot_id ∉ queue (_grant_access tm robot_id lane now) L) ∧
  ∀ other, other ≠ robot_id →
    (other ∈ queue (_grant_access tm robot_id lane now) L ↔ other ∈ queue tm L).
Proof.
  intros (started & ops & ->).
  pose proof (nodup_run ops (init started) (nodup_init started) L) as Hnd.
  unfold queue, _grant_access, _remove_from_other_queues in *. simpl.
  rewrite !lookup_insert_eq, lookup_fmap.
  destruct (waiting_queues (run (init started) ops) !! L) as [q |]; simpl in *.
  - split_and!; [done | done | by apply list_remove_absent |].
    intros other Hne. by apply list_remove_other.
  - split_and!; [done | done | apply not_elem_of_nil | done].
Qed.

(** the theorem at the arbiter [contended]: robot 1 leaves the queue of
    lane (0,1) *)
Lemma grant_access_reserves_and_dequeues_witness :
  1 ∉ queue (_grant_access contended 1 (2, 3) 2) (0, 1).
Proof.
  apply (grant_access_reserves_and_dequeues contended 1 (2, 3) 2 (0, 1)).
  exists 0%Q, [Request 2 (0, 1) 0; Request 1 (0, 1) 1]. reflexivity.
Defined.

Lemma enqueue_present queues robot_id lane :
  ∃ q, (enqueue queues robot_id lane) !! lane = Some q ∧ (robot_id ∈ q).
Proof.
  unfold enqueue.
  destruct (queues !! lane) as [q |] eqn:Hq; simpl.
  - rewrite Hq. simpl. case_bool_decide as Hin.
    + by exists q.
    + exists (q ++ [robot_id]). rewrite lookup_insert_eq. split; [done |].
      apply elem_of_app. right. by apply list_elem_of_singleton.
  - rewrite lookup_insert_eq. simpl.
    exists [robot_id]. rewrite lookup_insert_eq. split; [done |].
    by apply list_elem_of_singleton.
Qed.

(** X26: [_enqueue_robot] is idempotent: after it the robot is in the
    queue of the lane, a second call changes nothing, and the queues of the
    other lanes are never touched. *)
Theorem enqueue_robot_is_idempotent tm robot_id lane :
  (robot_id ∈ queue (_enqueue_robot tm robot_id lane) lane) ∧
  _enqueue_robot (_enqueue_robot tm robot_id lane) robot_id lane
    = _enqueue_robot tm robot_id lane ∧
  ∀ L, L ≠ lane → queue (_enqueue_robot tm robot_id lane) L = queue tm L.
Proof.
  destruct (enqueue_present (waiting_queues tm) robot_id lane) as (q & Hq & Hin).
  split_and!.
  - unfold queue, _enqueue_robot. simpl. by rewrite Hq.
  - unfold _enqueue_robot. simpl. f_equal.
    unfold enqueue at 1. rewrite Hq. simpl. rewrite Hq. simpl.
    by rewrite bool_decide_eq_true_2.
  - intros L Hne.
    destruct (enqueue_lookup (waiting_queues tm) robot_id lane L)
      as [? | (? & _)]; done.
Qed.

End ArbiterMore.

(** * Further properties of the robot *)

Module RobotMore.
Import Invariants.

(** case analysis over the branches of [update] and of the handlers it
    calls *)
Ltac split_update :=
  unfold Robot.update, Robot._handle_movement, Robot._handle_waiting,
    Robot._calculate_path;
  repeat (first [ case_bool_decide | case_match ]; simpl in *; simplify_eq).

Ltac order_facts :=
  repeat match goal with
  | H : Qltb _ _ = true |- _ => apply Qltb_true in H
  | H : Qltb _ _ = false |- _ => apply Qltb_false in H
  | H : Qle_bool _ _ = true |- _ => apply Qle_bool_iff in H
  | H : Qle_bool _ _ = false |- _ =>
      apply not_true_iff_false in H; rewrite Qle_bool_iff in H;
      apply Qnot_le_lt in H
  end.

(** what a request did to the reservations, for every request found among
    the hypotheses *)
Ltac use_request :=
  repeat match goal with
  | H : TrafficManager.request_lane ?tm ?id ?lane ?now = (_, _) |- _ =>
      let F := fresh "Hreq" in
      pose proof (ArbiterFacts.request_lane_occupied tm id lane now) as F;
      rewrite H in F; simpl in F; clear H;
      destruct F as [[? F] | (? & ? & ? & F)]; try discriminate
  end.

Ltac lookup_lanes :=
  rewrite ?ArbiterFacts.release_lane_occupied;
  repeat match goal with
  | H : TrafficManager.occupied_lanes _ = _ |- _ => rewrite H
  end;
  repeat match goal with
  | |- context [delete ?l _ !! ?L] =>
      destruct (decide (l = L));
      [subst; rewrite lookup_delete_eq | rewrite lookup_delete_ne by done]
  | |- context [<[?l := _]> _ !! ?L] =>
      destruct (decide (l = L));
      [subst; rewrite lookup_insert_eq | rewrite lookup_insert_ne by done]
  end.

(** X10: [update] never makes the battery negative, whatever the time
    step, and never raises it when the drain rate times the time step is
    not negative. *)
Theorem update_keeps_battery_in_range self tm delta_time now :
  (0 <= Robot.battery self)%Q →
  (0 <= Robot.battery (Robot.update self tm delta_time now).1.1)%Q ∧
  ((0 <= Robot.battery_drain_rate (Robot.config self) * delta_time)%Q →
   (Robot.battery (Robot.update self tm delta_time now).1.1
      <= Robot.battery self)%Q).
Proof.
  intros Hb. split_update.
  all: try (split; [done | intros; apply Qle_refl]).
  all: order_facts; split; [lra | intros; lra].
Qed.

(** the theorem at robot 1 of the fleet [crossing], which is moving along
    lane (0,1), ticked for a quarter of a second: the battery drains *)
Lemma update_keeps_battery_in_range_witness :
  Robot.status (System.robot_of System.crossing 1) = "moving" ∧
  Robot.current_lane (System.robot_of System.crossing 1) = Some (0, 1) ∧
  (0 <= Robot.battery
          (Robot.update (System.robot_of System.crossing 1) (FleetManager.traffic_manager System.crossing)
             (1 # 4) 2).1.1)%Q ∧
  (Robot.battery
     (Robot.update (System.robot_of System.crossing 1) (FleetManager.traffic_manager System.crossing)
        (1 # 4) 2).1.1
   <= Robot.battery (System.robot_of System.crossing 1))%Q ∧
  (Robot.battery
     (Robot.update (System.robot_of System.crossing 1) (FleetManager.traffic_manager System.crossing)
        (1 # 4) 2).1.1
   < Robot.battery (System.robot_of System.crossing 1))%Q.
Proof.
  assert (Hcharged : (0 <= Robot.battery (System.robot_of System.crossing 1))%Q)
    by (vm_compute; discriminate).
  assert (Hdrain : (0 <= Robot.battery_drain_rate
                            (Robot.config (System.robot_of System.crossing 1)) * (1 # 4))%Q)
    by (vm_compute; discriminate).
  destruct (update_keeps_battery_in_range (System.robot_of System.crossing 1)
              (FleetManager.traffic_manager System.crossing) (1 # 4) 2 Hcharged) as [Hlow Hhigh].
  split_and!; [vm_compute; reflexivity | vm_compute; reflexivity | exact Hlow
              | exact (Hhigh Hdrain) | vm_compute; reflexivity].
Defined.

(** X11: [update] keeps the progress along the lane below 1: reaching 1
    moves the robot to the next vertex and resets the progress to 0. The
    progress stays at or above 0 when the time step times the speed is not
    negative. *)
Theorem update_keeps_progress_in_unit self tm delta_time now :
  (Robot.progress self < 1)%Q →
  (Robot.progress (Robot.update self tm delta_time now).1.1 < 1)%Q ∧
  ((0 <= Robot.progress self)%Q →
   (0 <= delta_time * Robot.movement_speed (Robot.config self))%Q →
   (0 <= Robot.progress (Robot.update self tm delta_time now).1.1)%Q).
Proof.
  intros Hp. split_update.
  all: try (split; [done | by intros]).
  all: order_facts; split; [lra | intros; lra].
Qed.

(** the theorem at robot 1 of the fleet [crossing], half way along lane
    (0,1): a tick of a quarter of a second takes it to three quarters, a
    tick of half a second to the end of the lane, where the progress is
    reset to 0 *)
Lemma update_keeps_progress_in_unit_witness :
  Robot.status (System.robot_of System.crossing 1) = "moving" ∧
  (Robot.progress (System.robot_of System.crossing 1) == 1 # 2)%Q ∧
  (Robot.progress
     (Robot.update (System.robot_of System.crossing 1) (FleetManager.traffic_manager System.crossing)
        (1 # 4) 2).1.1 == 3 # 4)%Q ∧
  (0 <= Robot.progress
          (Robot.update (System.robot_of System.crossing 1) (FleetManager.traffic_manager System.crossing)
             (1 # 4) 2).1.1 < 1)%Q ∧
  (Robot.progress
     (Robot.update (System.robot_of System.crossing 1) (FleetManager.traffic_manager System.crossing)
        (1 # 2) 2).1.1 == 0)%Q ∧
  (0 <= Robot.progress
          (Robot.update (System.robot_of System.crossing 1) (FleetManager.traffic_manager System.crossing)
             (1 # 2) 2).1.1 < 1)%Q.
Proof.
  assert (Hbelow : (Robot.progress (System.robot_of System.crossing 1) < 1)%Q)
    by (vm_compute; reflexivity).
  assert (Hstarted : (0 <= Robot.progress (System.robot_of System.crossing 1))%Q)
    by (vm_compute; discriminate).
  assert (Hquarter : (0 <= (1 # 4) * Robot.movement_speed
                                       (Robot.config (System.robot_of System.crossing 1)))%Q)
    by (vm_compute; discriminate).
  assert (Hhalf : (0 <= (1 # 2) * Robot.movement_speed
                                    (Robot.config (System.robot_of System.crossing 1)))%Q)
    by (vm_compute; discriminate).
  destruct (update_keeps_progress_in_unit (System.robot_of System.crossing 1)
              (FleetManager.traffic_manager System.crossing) (1 # 4) 2 Hbelow) as [Hhigh Hlow].
  destruct (update_keeps_progress_in_unit (System.robot_of System.crossing 1)
              (FleetManager.traffic_manager System.crossing) (1 # 2) 2 Hbelow) as [Hhigh' Hlow'].
  split_and!;
    [ vm_compute; reflexivity | vm_compute; reflexivity
    | vm_compute; reflexivity | exact (Hlow Hstarted Hquarter) | exact Hhigh
    | vm_compute; reflexivity | exact (Hlow' Hstarted Hhalf) | exact Hhigh' ].
Defined.

(** what [update] does to the lanes, for a robot whose current lane is
    reserved under its id *)
Lemma update_lanes self tm delta_time now :
  holds_own_lane self tm →
  Robot.id (Robot.update self tm delta_time now).1.1 = Robot.id self ∧
  holds_own_lane (Robot.update self tm delta_time now).1.1
                 (Robot.update self tm delta_time now).1.2 ∧
  ∀ L other,
    other ≠ Robot.id self →
    TrafficManager.occupied_lanes tm !! L = Some other →
    TrafficManager.occupied_lanes (Robot.update self tm delta_time now).1.2 !! L
      = Some other.
Proof.
  unfold holds_own_lane. intros Hown.
  split_update; use_request.
  all: try (split_and!; [done | done | done]).
  all: split_and!; [done | |].
  all: try (intros ? [=]; subst).
  all: try done.
  all: intros; lookup_lanes.
  all: try done.
  all: try match goal with
           | H : ∀ L, Some ?l = Some L → _ |- _ =>
               specialize (H l eq_refl); congruence
           end.
  all: try match goal with
           | H : ∀ L, _ = Some L → _, H' : _ = Some ?l |- _ =>
               specialize (H l H'); congruence
           end.
  all: match goal with
       | H : TrafficManager.reserved _ _ = false |- _ =>
           apply ArbiterFacts.reserved_false in H; congruence
       end.
Qed.

(** X12: a tick of a robot whose current lane is reserved under its id
    leaves it so, and changes no reservation of another robot: a lane held
    by another id before the tick is held by that id after it. *)
Theorem update_respects_reservations self tm delta_time now L other :
  holds_own_lane self tm →
  other ≠ Robot.id self →
  TrafficManager.occupied_lanes tm !! L = Some other →
  holds_own_lane (Robot.update self tm delta_time now).1.1
                 (Robot.update self tm delta_time now).1.2 ∧
  TrafficManager.occupied_lanes (Robot.update self tm delta_time now).1.2 !! L
    = Some other.
Proof.
  intros Hown Hother HL.
  destruct (update_lanes self tm delta_time now Hown) as (_ & Hown' & Hkept).
  split; [done | by apply Hkept].
Qed.

(** the theorem at robot 1 of the fleet [crossing], which holds lane
    (0,1) while robot 2 holds lane (2,1): a tick of a quarter of a second
    leaves robot 1 on its lane, a tick of half a second makes it release
    the lane, and lane (2,1) stays with robot 2 in both *)
Lemma update_respects_reservations_witness :
  Robot.current_lane (System.robot_of System.crossing 1) = Some (0, 1) ∧
  TrafficManager.occupied_lanes (FleetManager.traffic_manager System.crossing) !! (2, 1) = Some 2 ∧
  Robot.current_lane
    (Robot.update (System.robot_of System.crossing 1) (FleetManager.traffic_manager System.crossing)
       (1 # 4) 2).1.1 = Some (0, 1) ∧
  holds_own_lane
    (Robot.update (System.robot_of System.crossing 1) (FleetManager.traffic_manager System.crossing)
       (1 # 4) 2).1.1
    (Robot.update (System.robot_of System.crossing 1) (FleetManager.traffic_manager System.crossing)
       (1 # 4) 2).1.2 ∧
  TrafficManager.occupied_lanes
    (Robot.update (System.robot_of System.crossing 1) (FleetManager.traffic_manager System.crossing)
       (1 # 4) 2).1.2 !! (2, 1) = Some 2 ∧
  TrafficManager.occupied_lanes
    (Robot.update (System.robot_of System.crossing 1) (FleetManager.traffic_manager System.crossing)
       (1 # 2) 2).1.2 !! (0, 1) = None ∧
  TrafficManager.occupied_lanes
    (Robot.update (System.robot_of System.crossing 1) (FleetManager.traffic_manager System.crossing)
       (1 # 2) 2).1.2 !! (2, 1) = Some 2.
Proof.
  assert (Hlane : Robot.current_lane (System.robot_of System.crossing 1) = Some (0, 1))
    by (vm_compute; reflexivity).
  assert (Hmine : TrafficManager.occupied_lanes (FleetManager.traffic_manager System.crossing)
                    !! (0, 1) = Some (Robot.id (System.robot_of System.crossing 1)))
    by (vm_compute; reflexivity).
  assert (Hown : holds_own_lane (System.robot_of System.crossing 1) (FleetManager.traffic_manager System.crossing)).
  { intros L HL. rewrite Hlane in HL. injection HL as <-. exact Hmine. }
  assert (Hother : 2 ≠ Robot.id (System.robot_of System.crossing 1))
    by (vm_compute; discriminate).
  assert (Htheirs : TrafficManager.occupied_lanes (FleetManager.traffic_manager System.crossing)
                      !! (2, 1) = Some 2)
    by (vm_compute; reflexivity).
  destruct (update_respects_reservations (System.robot_of System.crossing 1)
              (FleetManager.traffic_manager System.crossing) (1 # 4) 2 (2, 1) 2 Hown Hother Htheirs)
    as [Hown' Hkept].
  destruct (update_respects_reservations (System.robot_of System.crossing 1)
              (FleetManager.traffic_manager System.crossing) (1 # 2) 2 (2, 1) 2 Hown Hother Htheirs)
    as [_ Hkept'].
  split_and!;
    [ exact Hlane | exact Htheirs | vm_compute; reflexivity | exact Hown'
    | exact Hkept | vm_compute; reflexivity | exact Hkept' ].
Defined.
(** X13: the three colour channels that [_generate_color] derives from a
    robot id are between 0 and 255, for negative ids too. *)
Theorem generate_color_in_byte_range robot_id :
  0 ≤ (Robot._generate_color robot_id).1.1 < 256 ∧
  0 ≤ (Robot._generate_color robot_id).1.2 < 256 ∧
  0 ≤ (Robot._generate_color robot_id).2 < 256.
Proof.
  unfold Robot._generate_color. simpl.
  split_and!; apply Z.mod_pos_bound; lia.
Qed.

(** [update] changes the arbiter only through requests and releases *)
Lemma update_runs_lane_traffic self tm delta_time now :
  ∃ ops, Forall lane_traffic ops ∧
         (Robot.update self tm delta_time now).1.2 = Arbiter.run tm ops.
Proof.
  split_update.
  all: cbn [fst snd].
  all: match goal with
       | H : TrafficManager.request_lane ?tm ?i ?l ?n = (?t0, _)
         |- ∃ ops, _ ∧ TrafficManager.release_lane ?t0 ?h = _ =>
           exists [Arbiter.Request i l n; Arbiter.Release h];
           split; [by repeat constructor | simpl; by rewrite H]
       | H : TrafficManager.request_lane ?tm ?i ?l ?n = (?t0, _)
         |- ∃ ops, _ ∧ ?t0 = _ =>
           exists [Arbiter.Request i l n];
           split; [by repeat constructor | simpl; by rewrite H]
       | |- ∃ ops, _ ∧ TrafficManager.release_lane ?tm ?h = Arbiter.run ?tm ops =>
           exists [Arbiter.Release h]; split; [by repeat constructor | done]
       | |- ∃ ops, _ ∧ ?tm = Arbiter.run ?tm ops =>
           exists []; split; [constructor | done]
       end.
Qed.

Lemma update_id self tm delta_time now :
  Robot.id (Robot.update self tm delta_time now).1.1 = Robot.id self.
Proof. split_update; done. Qed.

(** a halted robot keeps its course through [update] *)
Lemma update_halted_course self tm delta_time now :
  Fleet.halted self →
  same_course self (Robot.update self tm delta_time now).1.1.
Proof.
  intros [Hstatus Hbattery]. unfold Robot.update.
  destruct (Robot._check_imminent_collision self tm delta_time); simpl;
    rewrite ?Hstatus; simpl; rewrite Hbattery; simpl; rewrite ?Hstatus;
    by repeat split.
Qed.

(** X27: a waiting robot does nothing until its wait has lasted longer
    than max_wait_time: while the collision check does not fire and the
    battery is not low, [update] makes no request, leaves the traffic
    manager and the robot's course as they were and returns False. The
    same holds for a waiting robot without a recorded wait start. *)
Theorem waiting_robot_waits self tm delta_time now :
  Robot.status self = "waiting" →
  Robot._check_imminent_collision self tm delta_time = false →
  Qltb (Robot.battery self) (Robot.min_battery (Robot.config self)) = false →
  match Robot.wait_start_time self with
  | Some started =>
      (now - started <= Robot.max_wait_time (Robot.config self))%Q
  | None => True
  end →
  same_course self (Robot.update self tm delta_time now).1.1 ∧
  Robot.wait_start_time (Robot.update self tm delta_time now).1.1
    = Robot.wait_start_time self ∧
  (Robot.update self tm delta_time now).1.2 = tm ∧
  (Robot.update self tm delta_time now).2 = Ok false.
Proof.
  intros Hstatus Hcheck Hbattery Hwait.
  unfold Robot.update, Robot._handle_waiting.
  rewrite Hcheck, Hstatus, Hbattery. simpl.
  destruct (Robot.wait_start_time self) as [started |] eqn:Hstarted;
    [| by repeat split].
  apply Qltb_false in Hwait. rewrite Hwait, andb_false_r. simpl.
  by repeat split.
Qed.

(** the theorem at the robot [waiting_cut_off], five seconds into its
    wait *)
Lemma waiting_robot_waits_witness :
  (Robot.update Fleet.waiting_cut_off (TrafficManager.init 0) (1 # 2) 6).1.2
    = TrafficManager.init 0.
Proof.
  apply (waiting_robot_waits Fleet.waiting_cut_off (TrafficManager.init 0)
           (1 # 2) 6); vm_compute; try reflexivity.
  discriminate.
Defined.

(** X28: a tick of a moving robot either leaves it at its vertex with its
    path, or takes it to the head of its path and pops that head; in the
    second case the progress is 0 and the lane is given up, and the robot
    is idle when the path is used up. *)
Theorem moving_robot_follows_path self tm delta_time now :
  Robot.status self = "moving" →
  let r' := (Robot.update self tm delta_time now).1.1 in
  (Robot.current_vertex r' = Robot.current_vertex self ∧
   Robot.path r' = Robot.path self) ∨
  (Robot.path self = Robot.current_vertex r' :: Robot.path r' ∧
   Robot.progress r' = 0%Q ∧
   Robot.current_lane r' = None ∧
   (Robot.path r' = [] → Robot.status r' = "idle")).
Proof.
  intros Hstatus. split_update.
  all: try congruence.
  all: try (left; split; congruence).
  all: right; split_and!; try done.
  all: match goal with
       | H : Robot._check_imminent_collision _ _ _ = true |- _ =>
           unfold Robot._check_imminent_collision in H; simpl in H;
           discriminate
       end.
Qed.

(** the theorem at a robot about to reach the end of lane (0,1) *)
Lemma moving_robot_follows_path_witness :
  let r' :=
    (Robot.update
       (Robot.set_status "moving"
          (Robot.set_progress (1 # 2)
             (Robot.set_path [1]
                (Robot.init 1 0 (Some Fleet.corridor) Robot.default_config 0))))
       (TrafficManager.init 0) 1 1).1.1 in
  (Robot.current_vertex r' = 0 ∧ Robot.path r' = [1]) ∨
  ([1] = Robot.current_vertex r' :: Robot.path r' ∧
   Robot.progress r' = 0%Q ∧
   Robot.current_lane r' = None ∧
   (Robot.path r' = [] → Robot.status r' = "idle")).
Proof.
  apply (moving_robot_follows_path
           (Robot.set_status "moving"
              (Robot.set_progress (1 # 2)
                 (Robot.set_path [1]
                    (Robot.init 1 0 (Some Fleet.corridor)
                       Robot.default_config 0))))
           (TrafficManager.init 0) 1 1).
  reflexivity.
Defined.

End RobotMore.

(** * Further properties of the fleet *)

Module SystemFacts.
Import FleetManager System Invariants.

Lemma run_app fm calls calls' : run fm (calls ++ calls') = run (run fm calls) calls'.
Proof. apply foldl_app. Qed.

Lemma arbiter_run_app tm ops ops' :
  Arbiter.run tm (ops ++ ops') = Arbiter.run (Arbiter.run tm ops) ops'.
Proof. apply foldl_app. Qed.

(** induction over the calls of a run, last call last *)
Lemma reachable_ind (P : t → Prop) :
  (∀ started, P (init (TrafficManager.init started))) →
  (∀ fm c, reachable fm → P fm → P (call fm c)) →
  ∀ fm, reachable fm → P fm.
Proof.
  intros Hinit Hcall fm (started & calls & ->).
  induction calls as [| c calls IH] using rev_ind; [apply Hinit |].
  rewrite run_app. simpl. apply Hcall; [by exists started, calls | done].
Qed.

(** ids *)
Lemma update_each_ids rs tm delta_time now :
  Robot.id <$> (update_each rs tm delta_time now).1.1 = Robot.id <$> rs.
Proof.
  revert tm. induction rs as [| r rs IH]; intros tm; [done |].
  cbn [update_each].
  pose proof (RobotMore.update_id r tm delta_time now) as Hid.
  destruct (Robot.update r tm delta_time now) as [[r' tm'] [changed | e]];
    cbn [fst snd] in *.
  - specialize (IH tm').
    destruct (update_each rs tm' delta_time now) as [[rs' tm''] res].
    cbn [fst snd] in *. by rewrite !fmap_cons, Hid, IH.
  - by rewrite !fmap_cons, Hid.
Qed.

Lemma store_robot_ids rs robot_id r' :
  Robot.id r' = robot_id →
  Robot.id <$> store_robot rs robot_id r' = Robot.id <$> rs.
Proof.
  intros Hid. induction rs as [| r rs IH]; [done |].
  cbn [store_robot]. case_bool_decide as Hr.
  - by rewrite !fmap_cons, Hid, Hr.
  - by rewrite !fmap_cons, IH.
Qed.

Lemma assign_task_ids fm robot_id destination_idx now :
  Robot.id <$> robots (assign_task fm robot_id destination_idx now).1
    = Robot.id <$> robots fm ∧
  next_id (assign_task fm robot_id destination_idx now).1 = next_id fm ∧
  selected_robot (assign_task fm robot_id destination_idx now).1
    = selected_robot fm.
Proof.
  unfold assign_task.
  destruct (get_robot fm robot_id) as [robot |] eqn:Hget; [| done].
  destruct (bool_decide (Robot.status robot = "charging")); [done |].
  destruct (Robot.nav_graph robot) as [g |]; [| done].
  destruct (NavGraph.get_shortest_path g _ _) as [[| v p] | e]; try done.
  pose proof (FleetFacts.robot_assign_task_id robot destination_idx now) as Hid.
  apply FleetFacts.get_robot_id in Hget.
  destruct (Robot.assign_task robot destination_idx now) as [robot' [ok | e]];
    simpl in *; (split; [| done]); apply store_robot_ids; congruence.
Qed.

Lemma well_numbered_call fm c : well_numbered fm → well_numbered (call fm c).
Proof.
  intros (Hnd & Hnext & Hall). unfold well_numbered.
  destruct c as [vertex_idx g now | robot_id destination_idx now
                 | delta_time now | robot_id |]; simpl.
  - rewrite fmap_app. simpl. split_and!; [| lia |].
    + apply NoDup_app. split_and!; [done | | apply NoDup_singleton].
      intros x Hx Hx'. apply list_elem_of_singleton in Hx'. subst x.
      specialize (Hall _ Hx). lia.
    + intros i Hi. apply elem_of_app in Hi as [Hi | Hi].
      * specialize (Hall _ Hi). lia.
      * apply list_elem_of_singleton in Hi. lia.
  - destruct (assign_task_ids fm robot_id destination_idx now) as (Hids & Hn & _).
    by rewrite Hids, Hn.
  - unfold update_robots.
    pose proof (update_each_ids (robots fm) (traffic_manager fm) delta_time now)
      as Hids.
    destruct (update_each (robots fm) (traffic_manager fm) delta_time now)
      as [[rs tm] res].
    simpl in *. by rewrite Hids.
  - done.
  - split_and!; [constructor | done |]. intros i Hi. by apply elem_of_nil in Hi.
Qed.

Lemma well_numbered_reachable fm : reachable fm → well_numbered fm.
Proof.
  revert fm. apply reachable_ind.
  - intros started. split_and!; [constructor | done |].
    intros i Hi. by apply elem_of_nil in Hi.
  - intros fm c _. apply well_numbered_call.
Qed.

(** X14: in every fleet reachable by spawning, assigning, ticking,
    selecting and clearing, the robots have pairwise different ids, each
    at least 1 and below the next id the fleet manager hands out. *)
Theorem fleet_ids_are_distinct fm :
  reachable fm →
  NoDup (Robot.id <$> robots fm) ∧
  Forall (λ r, 1 ≤ Robot.id r < next_id fm) (robots fm).
Proof.
  intros Hr. destruct (well_numbered_reachable fm Hr) as (Hnd & _ & Hall).
  split; [done |]. apply Forall_forall. intros r Hin.
  apply Hall, list_elem_of_fmap. eauto.
Qed.

(** the theorem at the fleet [spawned] *)
Lemma fleet_ids_are_distinct_witness :
  NoDup (Robot.id <$> robots Fleet.spawned) ∧
  Forall (λ r, 1 ≤ Robot.id r < next_id Fleet.spawned) (robots Fleet.spawned).
Proof.
  apply fleet_ids_are_distinct.
  exists 0%Q, [Spawn 0 (Some Fleet.corridor) 0]. reflexivity.
Defined.

Lemma find_other_id rs i :
  i ∉ Robot.id <$> rs →
  List.find (λ r, bool_decide (Robot.id r = i)) rs = None.
Proof.
  induction rs as [| r rs IH]; [done |]. rewrite fmap_cons, not_elem_of_cons.
  intros [Hne Hout]. cbn [List.find].
  rewrite bool_decide_eq_false_2 by done. by apply IH.
Qed.

Lemma find_app_l rs rs' i r :
  List.find (λ r, bool_decide (Robot.id r = i)) rs = Some r →
  List.find (λ r, bool_decide (Robot.id r = i)) (rs ++ rs') = Some r.
Proof.
  induction rs as [| x rs IH]; [done |]. cbn [List.find app].
  by destruct (bool_decide (Robot.id x = i)).
Qed.

Lemma find_app_r rs rs' i :
  List.find (λ r, bool_decide (Robot.id r = i)) rs = None →
  List.find (λ r, bool_decide (Robot.id r = i)) (rs ++ rs')
    = List.find (λ r, bool_decide (Robot.id r = i)) rs'.
Proof.
  induction rs as [| x rs IH]; [done |]. cbn [List.find app].
  by destruct (bool_decide (Robot.id x = i)).
Qed.

(** X15: in a reachable fleet, [spawn_robot] returns a robot with a new id
    that [get_robot] finds under that id, idle at the given vertex with a
    full battery, and every robot that [get_robot] found before is still
    found under its id. *)
Theorem spawn_then_get_robot fm vertex_idx g now :
  reachable fm →
  let fm' := (spawn_robot fm vertex_idx g now).1 in
  let robot := (spawn_robot fm vertex_idx g now).2 in
  get_robot fm (Robot.id robot) = None ∧
  get_robot fm' (Robot.id robot) = Some robot ∧
  robot = Robot.init (next_id fm) vertex_idx g Robot.default_config now ∧
  ∀ i r, get_robot fm i = Some r → get_robot fm' i = Some r.
Proof.
  intros Hr fm' robot.
  destruct (well_numbered_reachable fm Hr) as (_ & _ & Hall).
  assert (Hnew : get_robot fm (next_id fm) = None).
  { apply find_other_id. intros Hin. specialize (Hall _ Hin). lia. }
  subst fm' robot. unfold get_robot, spawn_robot in *. cbn [fst snd robots].
  split_and!; [done | | done |].
  - rewrite find_app_r by done. cbn [List.find Robot.init Robot.id].
    by rewrite bool_decide_eq_true_2.
  - intros i r. apply find_app_l.
Qed.

(** the theorem at the fleet [spawned]: the second robot gets id 2 *)
Lemma spawn_then_get_robot_witness :
  get_robot (spawn_robot Fleet.spawned 2 (Some Fleet.corridor) 1).1 2
    = Some (Robot.init 2 2 (Some Fleet.corridor) Robot.default_config 1).
Proof.
  assert (Hr : reachable Fleet.spawned)
    by (exists 0%Q, [Spawn 0 (Some Fleet.corridor) 0]; reflexivity).
  exact (proj1 (proj2 (spawn_then_get_robot Fleet.spawned 2
                         (Some Fleet.corridor) 1 Hr))).
Defined.

(** the fleet changes the arbiter only through requests and releases *)
Lemma update_each_runs_lane_traffic rs tm delta_time now :
  ∃ ops, Forall lane_traffic ops ∧
         (update_each rs tm delta_time now).1.2 = Arbiter.run tm ops.
Proof.
  revert tm. induction rs as [| r rs IH]; intros tm; cbn [update_each].
  - exists []. by split.
  - destruct (RobotMore.update_runs_lane_traffic r tm delta_time now)
      as (ops & Hops & Htm).
    destruct (Robot.update r tm delta_time now) as [[r' tm'] [changed | e]];
      cbn [fst snd] in *.
    + destruct (IH tm') as (ops' & Hops' & Htm').
      destruct (update_each rs tm' delta_time now) as [[rs' tm''] res].
      cbn [fst snd] in *. exists (ops ++ ops'). split.
      * by apply Forall_app.
      * by rewrite arbiter_run_app, <- Htm.
    + by exists ops.
Qed.

Lemma call_runs_lane_traffic fm c :
  ∃ ops, Forall lane_traffic ops ∧
         traffic_manager (call fm c) = Arbiter.run (traffic_manager fm) ops.
Proof.
  destruct c as [vertex_idx g now | robot_id destination_idx now
                 | delta_time now | robot_id |]; simpl;
    try (exists []; by split).
  - exists []. split; [done |]. apply FleetFacts.assign_task_traffic_manager.
  - unfold update_robots.
    destruct (update_each_runs_lane_traffic (robots fm) (traffic_manager fm)
                delta_time now) as (ops & Hops & Htm).
    destruct (update_each (robots fm) (traffic_manager fm) delta_time now)
      as [[rs tm] res].
    by exists ops.
Qed.

(** a denied request keeps the keys of the wait queues *)
Lemma enqueue_keeps_keys (queues : gmap Lane (list Z)) robot_id lane L :
  is_Some (queues !! L) →
  is_Some (TrafficManager.enqueue queues robot_id lane !! L).
Proof.
  intros HL. unfold TrafficManager.enqueue.
  destruct (queues !! lane) as [q |] eqn:Hq.
  - case_bool_decide; [done |].
    destruct (decide (lane = L)) as [-> | Hne];
      [by rewrite lookup_insert_eq | by rewrite lookup_insert_ne].
  - case_bool_decide.
    + destruct (decide (lane = L)) as [-> | Hne];
        [by rewrite lookup_insert_eq | by rewrite lookup_insert_ne].
    + destruct (decide (lane = L)) as [-> | Hne];
        [by rewrite lookup_insert_eq | by rewrite !lookup_insert_ne].
Qed.

(** what a request or a release leaves alone: the time of the last
    periodic check and the keys of the wait queues; the event log gains
    BLOCKED entries at most *)
Lemma lane_traffic_step tm op :
  lane_traffic op →
  TrafficManager.last_deadlock_check (Arbiter.apply tm op)
    = TrafficManager.last_deadlock_check tm ∧
  (∀ L, is_Some (TrafficManager.waiting_queues tm !! L) →
        is_Some (TrafficManager.waiting_queues (Arbiter.apply tm op) !! L)) ∧
  ∃ entries,
    default [] (TrafficManager.event_log (Arbiter.apply tm op))
      = default [] (TrafficManager.event_log tm) ++ entries ∧
    Forall (λ e, TrafficManager.le_event e = TrafficManager.BLOCKED) entries.
Proof.
  destruct op as [robot_id lane now | lane | | |]; try done; intros _;
    cbn [Arbiter.apply].
  - unfold TrafficManager.request_lane, TrafficManager.detect_collisions.
    destruct (TrafficManager.reserved tm (reverse lane)); cbn.
    + split_and!; [done | done |].
      exists [TrafficManager.mkLogEntry now TrafficManager.BLOCKED robot_id lane].
      split; [done | by constructor].
    + destruct (TrafficManager.reserved tm lane); cbn.
      * split_and!; [done | | exists []; by rewrite app_nil_r].
        intros L HL. by apply enqueue_keeps_keys.
      * split_and!; [done | done | exists []; by rewrite app_nil_r].
  - unfold TrafficManager.release_lane.
    destruct (TrafficManager.reserved tm lane); cbn.
    all: split_and!; [done | | exists []; by rewrite app_nil_r].
    all: intros L HL;
      destruct (TrafficManager.waiting_queues tm !! lane)
        as [[| next_robot rest] |]; try done;
      (destruct (decide (lane = L)) as [-> | Hne];
       [by rewrite lookup_insert_eq | by rewrite lookup_insert_ne]).
Qed.

(** the same for a run of requests and releases *)
Lemma lane_traffic_frame ops tm :
  Forall lane_traffic ops →
  TrafficManager.last_deadlock_check (Arbiter.run tm ops)
    = TrafficManager.last_deadlock_check tm ∧
  (∀ L, is_Some (TrafficManager.waiting_queues tm !! L) →
        is_Some (TrafficManager.waiting_queues (Arbiter.run tm ops) !! L)) ∧
  ∃ entries,
    default [] (TrafficManager.event_log (Arbiter.run tm ops))
      = default [] (TrafficManager.event_log tm) ++ entries ∧
    Forall (λ e, TrafficManager.le_event e = TrafficManager.BLOCKED) entries.
Proof.
  intros Hops. revert tm.
  induction Hops as [| op ops Hop _ IH]; intros tm.
  - split_and!; [done | done |]. exists []. by rewrite app_nil_r.
  - cbn [Arbiter.run foldl].
    destruct (IH (Arbiter.apply tm op)) as (Hlast & Hkeys & entries & Hlog & Hall).
    destruct (lane_traffic_step tm op Hop)
      as (Hlast' & Hkeys' & entries' & Hlog' & Hall').
    fold (Arbiter.run (Arbiter.apply tm op) ops).
    rewrite Hlast, Hlog.
    split_and!; [done | by intros L HL; apply Hkeys, Hkeys' |].
    exists (entries' ++ entries). split.
    + by rewrite Hlog', <- app_assoc.
    + by apply Forall_app.
Qed.

(** X16: whatever calls are made on a fleet, they change its traffic
    manager as a list of [request_lane] and [release_lane] calls does,
    starting from the traffic manager the fleet had before the calls. So
    the calls leave the time of the last periodic check as it was, remove
    no key from the wait queues, and add to the event log BLOCKED entries
    only: the fleet does no stale reclamation and no queue clearing. *)
Theorem fleet_traffic_is_requests_and_releases fm calls :
  (∃ ops : list Arbiter.Op,
     Forall lane_traffic ops ∧
     traffic_manager (run fm calls) = Arbiter.run (traffic_manager fm) ops) ∧
  TrafficManager.last_deadlock_check (traffic_manager (run fm calls))
    = TrafficManager.last_deadlock_check (traffic_manager fm) ∧
  (∀ L, is_Some (TrafficManager.waiting_queues (traffic_manager fm) !! L) →
        is_Some (TrafficManager.waiting_queues
                   (traffic_manager (run fm calls)) !! L)) ∧
  ∃ entries,
    default [] (TrafficManager.event_log (traffic_manager (run fm calls)))
      = default [] (TrafficManager.event_log (traffic_manager fm)) ++ entries ∧
    Forall (λ e, TrafficManager.le_event e = TrafficManager.BLOCKED) entries.
Proof.
  assert (Hrun : ∃ ops : list Arbiter.Op,
            Forall lane_traffic ops ∧
            traffic_manager (run fm calls) = Arbiter.run (traffic_manager fm) ops).
  { induction calls as [| c calls IH] using rev_ind.
    - exists []. by split.
    - destruct IH as (ops & Hops & Htm).
      destruct (call_runs_lane_traffic (run fm calls) c) as (ops' & Hops' & Htm').
      exists (ops ++ ops'). split; [by apply Forall_app |].
      rewrite run_app. cbn [run foldl]. by rewrite arbiter_run_app, <- Htm. }
  split; [exact Hrun |].
  destruct Hrun as (ops & Hops & ->). by apply lane_traffic_frame.
Qed.

(** the traffic manager of a reachable fleet is a reachable arbiter *)
Lemma fleet_arbiter_reachable fm :
  reachable fm → Arbiter.reachable (traffic_manager fm).
Proof.
  revert fm. apply reachable_ind.
  - intros started. by exists started, [].
  - intros fm c _ (started & ops & Htm).
    destruct (call_runs_lane_traffic fm c) as (ops' & _ & Htm').
    exists started, (ops ++ ops'). by rewrite arbiter_run_app, <- Htm.
Qed.

(** ticking robots with different ids, each holding the lane it records *)
Lemma update_each_lanes rs tm delta_time now :
  NoDup (Robot.id <$> rs) →
  lanes_owned rs tm →
  lanes_owned (update_each rs tm delta_time now).1.1
              (update_each rs tm delta_time now).1.2 ∧
  ∀ L other,
    other ∉ Robot.id <$> rs →
    TrafficManager.occupied_lanes tm !! L = Some other →
    TrafficManager.occupied_lanes (update_each rs tm delta_time now).1.2 !! L
      = Some other.
Proof.
  unfold lanes_owned.
  revert tm. induction rs as [| r rs IH]; intros tm Hnd Hown;
    cbn [update_each]; [done |].
  rewrite fmap_cons in Hnd. apply NoDup_cons in Hnd as [Hfresh Hnd].
  apply Forall_cons in Hown as [Hr Hrs].
  destruct (RobotMore.update_lanes r tm delta_time now Hr)
    as (Hid & Hr' & Hkept).
  assert (Hrs1 : Forall (λ x, holds_own_lane x
                                (Robot.update r tm delta_time now).1.2) rs).
  { apply Forall_forall. intros x Hx L HL. apply Hkept.
    - intros Heq. apply Hfresh. rewrite <- Heq.
      apply list_elem_of_fmap. eauto.
    - rewrite Forall_forall in Hrs. by apply Hrs. }
  destruct (Robot.update r tm delta_time now) as [[r' tm'] [changed | e]];
    cbn [fst snd] in *.
  - destruct (IH tm' Hnd Hrs1) as [Hrs' Hkept'].
    destruct (update_each rs tm' delta_time now) as [[rs' tm''] res].
    cbn [fst snd] in *. split.
    + constructor; [| done]. intros L HL. apply Hkept'.
      * by rewrite Hid.
      * by apply Hr'.
    + intros L other Hother HL. rewrite fmap_cons, not_elem_of_cons in Hother.
      destruct Hother as [Hne Hout]. apply Hkept'; [done |]. by apply Hkept.
  - split; [by constructor |].
    intros L other Hother HL. rewrite fmap_cons, not_elem_of_cons in Hother.
    destruct Hother as [Hne Hout]. by apply Hkept.
Qed.

Lemma robot_assign_task_lane self destination_idx now :
  Robot.current_lane (Robot.assign_task self destination_idx now).1
    = Robot.current_lane self ∨
  Robot.current_lane (Robot.assign_task self destination_idx now).1 = None.
Proof.
  unfold Robot.assign_task.
  destruct (bool_decide (Robot.status self = "charging")
            || bool_decide (Robot.status self = "error")); [by left |].
  pose proof (FleetFacts.calculate_path_fields
                (Robot.set_destination (Some destination_idx) self)) as [_ Hl].
  destruct (Robot._calculate_path _) as [self2 [[] | e]]; simpl in *;
    [| by left].
  destruct (Robot.path self2); [by left | by right].
Qed.

Lemma store_robot_forall (P : Robot.t → Prop) rs robot_id r' :
  Forall P rs → P r' → Forall P (store_robot rs robot_id r').
Proof.
  intros Hrs Hr'. induction Hrs as [| r rs Hr Hrs IH]; [done |].
  cbn [store_robot]. case_bool_decide; by constructor.
Qed.

Lemma lanes_owned_call fm c :
  well_numbered fm →
  lanes_owned (robots fm) (traffic_manager fm) →
  lanes_owned (robots (call fm c)) (traffic_manager (call fm c)).
Proof.
  intros (Hnd & _ & _) Hown. unfold lanes_owned in *.
  destruct c as [vertex_idx g now | robot_id destination_idx now
                 | delta_time now | robot_id |]; simpl; [| | | done | done].
  - apply Forall_app. split; [done |]. constructor; [| done]. by intros L [=].
  - pose proof (FleetFacts.assign_task_traffic_manager fm robot_id
                  destination_idx now) as Htm.
    unfold assign_task in *.
    destruct (get_robot fm robot_id) as [robot |] eqn:Hget; [| done].
    destruct (bool_decide (Robot.status robot = "charging")); [done |].
    destruct (Robot.nav_graph robot) as [g |]; [| done].
    destruct (NavGraph.get_shortest_path g _ _) as [[| v p] | e]; try done.
    pose proof (FleetFacts.robot_assign_task_id robot destination_idx now) as Hid.
    pose proof (robot_assign_task_lane robot destination_idx now) as Hlane.
    assert (Hrobot : holds_own_lane robot (traffic_manager fm)).
    { rewrite Forall_forall in Hown. apply Hown.
      apply list_elem_of_In. unfold get_robot in Hget.
      by apply find_some in Hget as [? _]. }
    destruct (Robot.assign_task robot destination_idx now) as [robot' [ok | e]];
      cbn [fst snd robots traffic_manager with_robots] in *;
      (apply store_robot_forall; [done |]);
      (intros L HL; destruct Hlane as [Hlane | Hlane];
       [rewrite Hid; apply Hrobot; congruence | congruence]).
  - unfold update_robots.
    destruct (update_each_lanes (robots fm) (traffic_manager fm) delta_time now
                Hnd Hown) as [Hown' _].
    by destruct (update_each (robots fm) (traffic_manager fm) delta_time now)
      as [[rs tm] res].
Qed.

Lemma lanes_owned_reachable fm :
  reachable fm → lanes_owned (robots fm) (traffic_manager fm).
Proof.
  revert fm. apply reachable_ind.
  - intros started. constructor.
  - intros fm c Hr. apply lanes_owned_call. by apply well_numbered_reachable.
Qed.

(** X17: in every reachable fleet, the lane a robot records as its
    current lane is reserved in the traffic manager under that robot's
    id. *)
Theorem current_lane_is_reserved fm r L :
  reachable fm →
  r ∈ robots fm →
  Robot.current_lane r = Some L →
  TrafficManager.occupied_lanes (traffic_manager fm) !! L = Some (Robot.id r).
Proof.
  intros Hr Hin HL.
  pose proof (lanes_owned_reachable fm Hr) as Hown.
  unfold lanes_owned in Hown. rewrite Forall_forall in Hown. by apply Hown.
Qed.

(** X18: in every reachable fleet, two different robots are never on the
    same lane, and never on a lane and its reverse between two different
    vertices. *)
Theorem robots_never_share_a_lane fm i j r1 r2 L :
  reachable fm →
  robots fm !! i = Some r1 →
  robots fm !! j = Some r2 →
  i ≠ j →
  Robot.current_lane r1 = Some L →
  Robot.current_lane r2 ≠ Some L ∧
  (L.1 ≠ L.2 → Robot.current_lane r2 ≠ Some (reverse L)).
Proof.
  intros Hr Hi Hj Hij HL.
  pose proof (lanes_owned_reachable fm Hr) as Hown.
  unfold lanes_owned in Hown. rewrite Forall_forall in Hown.
  pose proof (Hown r1 (list_elem_of_lookup_2 _ _ _ Hi) L HL) as H1.
  destruct (well_numbered_reachable fm Hr) as (Hnd & _ & _).
  split.
  - intros HL2.
    pose proof (Hown r2 (list_elem_of_lookup_2 _ _ _ Hj) L HL2) as H2.
    apply Hij. eapply NoDup_lookup; [exact Hnd | |].
    + rewrite list_lookup_fmap, Hi. reflexivity.
    + rewrite list_lookup_fmap, Hj. simpl. congruence.
  - intros Hne HL2.
    pose proof (Hown r2 (list_elem_of_lookup_2 _ _ _ Hj) _ HL2) as H2.
    destruct (fleet_arbiter_reachable fm Hr) as (started & ops & Htm).
    pose proof (ArbiterFacts.exclusive_run ops (TrafficManager.init started)
                  ArbiterFacts.exclusive_empty L Hne) as Hex.
    rewrite <- Htm, H1, H2 in Hex. by specialize (Hex (mk_is_Some _ _ eq_refl)).
Qed.

(** the robots of [convoy] *)
Lemma convoy_robots :
  ∃ r1 r2,
    robots convoy = [r1; r2] ∧
    Robot.id r1 = 1 ∧ Robot.current_lane r1 = Some (0, 1) ∧
    Robot.id r2 = 2 ∧ Robot.current_lane r2 = None.
Proof.
  assert (H : (λ r, (Robot.id r, Robot.current_lane r)) <$> robots convoy
              = [(1, Some (0, 1)); (2, None)]) by (vm_compute; reflexivity).
  destruct (robots convoy) as [| r1 [| r2 [| r3 rs]]]; try discriminate H.
  injection H as H1 H1' H2 H2'. by exists r1, r2.
Qed.

Lemma convoy_reachable : reachable convoy.
Proof. by eexists 0%Q, _. Qed.

(** the theorem at the fleet [convoy]: lane (0,1) is reserved for robot 1 *)
Lemma current_lane_is_reserved_witness :
  TrafficManager.occupied_lanes (traffic_manager convoy) !! (0, 1) = Some 1.
Proof.
  destruct convoy_robots as (r1 & r2 & Hrs & Hid1 & Hl1 & _).
  assert (Hin : r1 ∈ robots convoy) by (rewrite Hrs; by left).
  pose proof (current_lane_is_reserved convoy r1 (0, 1) convoy_reachable
                Hin Hl1) as H.
  rewrite Hid1 in H. exact H.
Defined.

(** the theorem at the fleet [convoy]: robot 2 is not on lane (0,1) *)
Lemma robots_never_share_a_lane_witness :
  ∃ r2, robots convoy !! 1%nat = Some r2 ∧
        Robot.current_lane r2 ≠ Some (0, 1).
Proof.
  destruct convoy_robots as (r1 & r2 & Hrs & _ & Hl1 & _).
  exists r2. split; [by rewrite Hrs |].
  apply (robots_never_share_a_lane convoy 0%nat 1%nat r1 r2 (0, 1)
           convoy_reachable);
    [by rewrite Hrs | by rewrite Hrs | lia | exact Hl1].
Defined.

(** X19: in every reachable fleet, the traffic manager never holds a lane
    between two different vertices together with its reverse, no robot is
    twice in a wait queue, and a lane has a timestamp exactly when it is
    reserved. *)
Theorem fleet_keeps_arbiter_invariants fm L :
  reachable fm →
  (L.1 ≠ L.2 →
   TrafficManager.reserved (traffic_manager fm) L = true →
   TrafficManager.reserved (traffic_manager fm) (reverse L) = false) ∧
  NoDup (TrafficManager.queue (traffic_manager fm) L) ∧
  (is_Some (TrafficManager.occupied_lanes (traffic_manager fm) !! L) ↔
   is_Some (TrafficManager.occupation_timestamps (traffic_manager fm) !! L)).
Proof.
  intros Hr.
  destruct (fleet_arbiter_reachable fm Hr) as (started & ops & ->).
  split_and!.
  - intros Hne HL. apply ArbiterFacts.reserved_true in HL.
    apply ArbiterFacts.reserved_false.
    by apply (ArbiterFacts.exclusive_run ops (TrafficManager.init started)
                ArbiterFacts.exclusive_empty).
  - apply ArbiterMore.nodup_run, ArbiterMore.nodup_init.
  - apply ArbiterMore.stamped_run, ArbiterMore.stamped_init.
Qed.

Lemma queued_reachable : reachable queued.
Proof.
  exists 0%Q,
    [Spawn 0 (Some Fleet.corridor) 0; Spawn 1 (Some Fleet.corridor) 0;
     Assign 1 2 0; Tick (1 # 2) (1 # 2); Assign 2 2 (1 # 2);
     Tick (1 # 2) 1; Tick (1 # 2) (3 # 2); Tick (1 # 2) 2;
     Tick (1 # 4) (5 # 2)].
  reflexivity.
Qed.

(** the theorem at the fleet [queued] and lane (1,2), which robot 2
    holds while robot 1 is in its queue *)
Lemma fleet_keeps_arbiter_invariants_witness :
  TrafficManager.occupied_lanes (traffic_manager queued) !! (1, 2) = Some 2 ∧
  TrafficManager.queue (traffic_manager queued) (1, 2) = [1] ∧
  TrafficManager.reserved (traffic_manager queued) (2, 1) = false ∧
  NoDup (TrafficManager.queue (traffic_manager queued) (1, 2)) ∧
  is_Some (TrafficManager.occupation_timestamps (traffic_manager queued)
             !! (1, 2)).
Proof.
  assert (Hheld : TrafficManager.occupied_lanes (traffic_manager queued)
                    !! (1, 2) = Some 2)
    by (vm_compute; reflexivity).
  assert (Hreserved : TrafficManager.reserved (traffic_manager queued) (1, 2)
                      = true)
    by (vm_compute; reflexivity).
  assert (Hproper : ((1, 2) : Lane).1 ≠ ((1, 2) : Lane).2) by discriminate.
  destruct (fleet_keeps_arbiter_invariants queued (1, 2) queued_reachable)
    as (Hexclusive & Hnodup & Hstamped).
  split_and!;
    [ exact Hheld | vm_compute; reflexivity
    | exact (Hexclusive Hproper Hreserved) | exact Hnodup
    | apply Hstamped; rewrite Hheld; by eexists ].
Defined.

Lemma find_store_other rs robot_id other r' :
  other ≠ robot_id → Robot.id r' = robot_id →
  List.find (λ r, bool_decide (Robot.id r = other)) (store_robot rs robot_id r')
    = List.find (λ r, bool_decide (Robot.id r = other)) rs.
Proof.
  intros Hne Hid. induction rs as [| r rs IH]; [done |].
  cbn [store_robot]. case_bool_decide as Hr; cbn [List.find].
  - rewrite !bool_decide_eq_false_2 by congruence. done.
  - by rewrite IH.
Qed.

(** X20: the fleet-level [assign_task] changes at most the robot it
    addresses: every robot with another id is found unchanged, and the
    traffic manager, the selection and the next id are as before. *)
Theorem assign_task_changes_one_robot fm robot_id destination_idx now other :
  other ≠ robot_id →
  get_robot (assign_task fm robot_id destination_idx now).1 other
    = get_robot fm other ∧
  traffic_manager (assign_task fm robot_id destination_idx now).1
    = traffic_manager fm ∧
  selected_robot (assign_task fm robot_id destination_idx now).1
    = selected_robot fm ∧
  next_id (assign_task fm robot_id destination_idx now).1 = next_id fm.
Proof.
  intros Hne.
  destruct (assign_task_ids fm robot_id destination_idx now) as (_ & Hn & Hsel).
  split_and!; [| apply FleetFacts.assign_task_traffic_manager | done | done].
  unfold assign_task.
  destruct (get_robot fm robot_id) as [robot |] eqn:Hget; [| done].
  destruct (bool_decide (Robot.status robot = "charging")); [done |].
  destruct (Robot.nav_graph robot) as [g |]; [| done].
  destruct (NavGraph.get_shortest_path g _ _) as [[| v p] | e]; try done.
  pose proof (FleetFacts.robot_assign_task_id robot destination_idx now) as Hid.
  apply FleetFacts.get_robot_id in Hget.
  destruct (Robot.assign_task robot destination_idx now) as [robot' [ok | e]];
    cbn [fst snd] in *; unfold get_robot; cbn [robots with_robots];
    apply find_store_other; congruence.
Qed.

(** the theorem at the fleet [convoy]: sending robot 1 elsewhere leaves
    robot 2 as it was *)
Lemma assign_task_changes_one_robot_witness :
  get_robot (assign_task convoy 1 1 2).1 2 = get_robot convoy 2.
Proof.
  apply (assign_task_changes_one_robot convoy 1 1 2 2). lia.
Defined.

(** the path provider raises only NodeNotFound, and exactly when an end
    point is no node of the graph *)
Lemma get_shortest_path_raises g start end_ e :
  NavGraph.get_shortest_path g start end_ = Raise e ↔
  e = NodeNotFound ∧
  (start ∉ nx.nodes (NavGraph.graph g) ∨ end_ ∉ nx.nodes (NavGraph.graph g)).
Proof.
  unfold NavGraph.get_shortest_path, nx.astar_path.
  case_bool_decide as Hs; case_bool_decide as He; simpl.
  - destruct (nx.search _ _ _ _ _); simpl;
      (split; [done | intros [_ [Hout | Hout]]; by destruct Hout]).
  - split; [intros [= <-]; eauto | by intros [-> _]].
  - split; [intros [= <-]; eauto | by intros [-> _]].
  - split; [intros [= <-]; eauto | by intros [-> _]].
Qed.

(** the robot's own [assign_task] returns when the path provider does *)
Lemma robot_assign_task_returns self destination_idx now g p :
  Robot.nav_graph self = Some g →
  NavGraph.get_shortest_path g (Robot.current_vertex self) destination_idx
    = Ok p →
  ∃ ok, (Robot.assign_task self destination_idx now).2 = Ok ok.
Proof.
  intros Hg Hp. unfold Robot.assign_task, Robot._calculate_path.
  destruct (bool_decide (Robot.status self = "charging")
            || bool_decide (Robot.status self = "error")); [by eexists |].
  simpl. rewrite Hg, Hp. destruct p; simpl; by eexists.
Qed.

(** X21: the fleet-level [assign_task] ends with an exception in exactly
    one situation: the robot exists, is not charging and has a graph, and
    its current vertex or the destination is not an end point of any lane
    of the graph. The exception is NodeNotFound and the fleet is left as
    it was; in every other situation a result dictionary is returned. *)
Theorem assign_task_raises_iff fm robot_id destination_idx now e :
  (assign_task fm robot_id destination_idx now).2 = Raise e ↔
  e = NodeNotFound ∧
  (assign_task fm robot_id destination_idx now).1 = fm ∧
  ∃ robot g,
    get_robot fm robot_id = Some robot ∧
    Robot.status robot ≠ "charging" ∧
    Robot.nav_graph robot = Some g ∧
    (Robot.current_vertex robot ∉ nx.nodes (NavGraph.graph g) ∨
     destination_idx ∉ nx.nodes (NavGraph.graph g)).
Proof.
  unfold assign_task.
  destruct (get_robot fm robot_id) as [robot |] eqn:Hget;
    [| split; [done | by intros (_ & _ & ? & ? & ? & _)]].
  case_bool_decide as Hcharging;
    [split; [done | intros (_ & _ & ? & ? & ? & ? & _); congruence] |].
  destruct (Robot.nav_graph robot) as [g |] eqn:Hg;
    [| split; [done | intros (_ & _ & ? & ? & ? & ? & ? & _); congruence]].
  pose proof (get_shortest_path_raises g (Robot.current_vertex robot)
                destination_idx) as Hraise.
  destruct (NavGraph.get_shortest_path g (Robot.current_vertex robot)
              destination_idx) as [p | e'] eqn:Hp.
  - assert (Hno : ¬ (Robot.current_vertex robot ∉ nx.nodes (NavGraph.graph g) ∨
                     destination_idx ∉ nx.nodes (NavGraph.graph g))).
    { intros Hout.
      discriminate (proj2 (Hraise NodeNotFound) (conj eq_refl Hout)). }
    assert (Hback : ∀ x : t * result TaskResult,
              e = NodeNotFound ∧ x.1 = fm ∧
              (∃ robot0 g0, Some robot = Some robot0 ∧
                 Robot.status robot0 ≠ "charging" ∧
                 Robot.nav_graph robot0 = Some g0 ∧
                 (Robot.current_vertex robot0 ∉ nx.nodes (NavGraph.graph g0) ∨
                  destination_idx ∉ nx.nodes (NavGraph.graph g0))) → False).
    { intros x (_ & _ & robot0 & g0 & [= <-] & _ & Hg0 & Hout).
      rewrite Hg in Hg0. injection Hg0 as <-. by apply Hno. }
    destruct p as [| v p].
    + split; [done | intros H; destruct (Hback _ H)].
    + destruct (robot_assign_task_returns robot destination_idx now g (v :: p)
                  Hg Hp) as [ok Hok].
      destruct (Robot.assign_task robot destination_idx now) as [robot' res].
      simpl in Hok. subst res. split; [done | intros H; destruct (Hback _ H)].
  - simpl. split.
    + intros [= <-]. destruct (proj1 (Hraise e') eq_refl) as [-> Hout].
      split_and!; [done | done |]. by exists robot, g.
    + intros (-> & _). destruct (proj1 (Hraise e') eq_refl) as [-> _]. done.
Qed.

(** X22: a successful fleet-level [assign_task] returns the path of the
    path provider, which is not empty, and its length as the estimated
    time; the robot is then "moving" towards the destination along exactly
    that path, from the vertex it was at, with no current lane, no
    progress and no waiting time. *)
Theorem assign_task_success_state fm robot_id destination_idx now fm' res :
  assign_task fm robot_id destination_idx now = (fm', Ok res) →
  success res = true →
  ∃ robot robot' g,
    get_robot fm robot_id = Some robot ∧
    Robot.nav_graph robot = Some g ∧
    NavGraph.get_shortest_path g (Robot.current_vertex robot) destination_idx
      = Ok (path res) ∧
    path res ≠ [] ∧
    estimated_time res = (inject_Z (Z.of_nat (length (path res))) * 1)%Q ∧
    get_robot fm' robot_id = Some robot' ∧
    Robot.path robot' = path res ∧
    Robot.destination robot' = Some destination_idx ∧
    Robot.status robot' = "moving" ∧
    Robot.current_vertex robot' = Robot.current_vertex robot ∧
    Robot.current_lane robot' = None ∧
    Robot.progress robot' = 0%Q ∧
    Robot.wait_start_time robot' = None ∧
    Robot.battery robot' = Robot.battery robot.
Proof.
  intros Hassign Hsuccess. unfold assign_task in Hassign.
  destruct (get_robot fm robot_id) as [robot |] eqn:Hget;
    [| by simplify_eq].
  destruct (bool_decide (Robot.status robot = "charging")); [by simplify_eq |].
  destruct (Robot.nav_graph robot) as [g |] eqn:Hg; [| by simplify_eq].
  destruct (NavGraph.get_shortest_path g (Robot.current_vertex robot)
              destination_idx) as [[| v p] | e] eqn:Hp;
    [by simplify_eq | | by simplify_eq].
  pose proof (FleetFacts.robot_assign_task_id robot destination_idx now) as Hid.
  pose proof (FleetFacts.get_robot_id _ _ _ Hget) as Hrid.
  unfold Robot.assign_task, Robot._calculate_path in *.
  destruct (bool_decide (Robot.status robot = "charging")
            || bool_decide (Robot.status robot = "error"));
    [by simplify_eq |].
  simpl in *. rewrite Hg, Hp in *. simpl in *. simplify_eq. simpl in *.
  eexists robot, _, g. do 5 (split; [done |]). split.
  - unfold get_robot. simpl.
    eapply FleetFacts.find_store_robot; [exact Hget | done].
  - by repeat split.
Qed.

(** the theorem at the fleet [spawned], robot 1 sent to vertex 2 *)
Lemma assign_task_success_state_witness :
  ∃ robot robot' g,
    get_robot Fleet.spawned 1 = Some robot ∧
    Robot.nav_graph robot = Some g ∧
    NavGraph.get_shortest_path g (Robot.current_vertex robot) 2
      = Ok [0; 1; 2] ∧
    [0; 1; 2] ≠ [] ∧
    (3 : Q) = (inject_Z (Z.of_nat (length [0; 1; 2])) * 1)%Q ∧
    get_robot (assign_task Fleet.spawned 1 2 0).1 1 = Some robot' ∧
    Robot.path robot' = [0; 1; 2] ∧
    Robot.destination robot' = Some 2 ∧
    Robot.status robot' = "moving" ∧
    Robot.current_vertex robot' = Robot.current_vertex robot ∧
    Robot.current_lane robot' = None ∧
    Robot.progress robot' = 0%Q ∧
    Robot.wait_start_time robot' = None ∧
    Robot.battery robot' = Robot.battery robot.
Proof.
  apply (assign_task_success_state Fleet.spawned 1 2 0
           (assign_task Fleet.spawned 1 2 0).1
           (mkTaskResult true (Assignment true) 3 [0; 1; 2])).
  - vm_compute. reflexivity.
  - reflexivity.
Defined.

(** X23: a robot that is charging or in error cannot be given a task: the
    fleet-level [assign_task] never returns success for it, and the robot
    keeps its status, position, destination, path, lane, progress and
    battery. *)
Theorem assign_task_rejected_when_charging_or_error
    fm robot_id destination_idx now robot fm' res :
  get_robot fm robot_id = Some robot →
  Robot.status robot = "charging" ∨ Robot.status robot = "error" →
  assign_task fm robot_id destination_idx now = (fm', Ok res) →
  success res = false ∧
  ∃ robot', get_robot fm' robot_id = Some robot' ∧ same_course robot robot'.
Proof.
  intros Hget Hstatus Hassign. unfold assign_task in Hassign.
  rewrite Hget in Hassign.
  case_bool_decide as Hcharging.
  { simplify_eq. split; [done |]. exists robot. by repeat split. }
  destruct Hstatus as [? | Herror]; [done |].
  destruct (Robot.nav_graph robot) as [g |].
  2: { simplify_eq. split; [done |]. exists robot. by repeat split. }
  destruct (NavGraph.get_shortest_path g _ _) as [[| v p] | e];
    [| | by simplify_eq].
  { simplify_eq. split; [done |]. exists robot. by repeat split. }
  pose proof (FleetFacts.get_robot_id _ _ _ Hget) as Hrid.
  unfold Robot.assign_task in Hassign.
  rewrite (bool_decide_eq_false_2 _ Hcharging),
    (bool_decide_eq_true_2 _ Herror) in Hassign.
  simpl in Hassign. simplify_eq. split; [done |].
  eexists. split.
  - unfold get_robot. simpl.
    eapply FleetFacts.find_store_robot; [exact Hget | done].
  - by repeat split.
Qed.

(** the theorem at the fleet [grounded], whose robot is in error *)
Lemma assign_task_rejected_when_charging_or_error_witness :
  success (mkTaskResult false (Assignment false) 3 [0; 1; 2]) = false ∧
  ∃ robot',
    get_robot (assign_task grounded 1 2 1).1 1 = Some robot' ∧
    same_course
      (Robot.assign_task
         (Robot.init 1 0 (Some Fleet.corridor) Robot.default_config 0) 4 0).1
      robot'.
Proof.
  apply (assign_task_rejected_when_charging_or_error grounded 1 2 1
           (Robot.assign_task
              (Robot.init 1 0 (Some Fleet.corridor) Robot.default_config 0)
              4 0).1
           (assign_task grounded 1 2 1).1
           (mkTaskResult false (Assignment false) 3 [0; 1; 2])).
  - vm_compute. reflexivity.
  - right. vm_compute. reflexivity.
  - vm_compute. reflexivity.
Defined.

Lemma same_course_trans r r' r'' :
  same_course r r' → same_course r' r'' → same_course r r''.
Proof.
  unfold same_course. intros (? & ? & ? & ? & ? & ? & ? & ?)
    (? & ? & ? & ? & ? & ? & ? & ?).
  split_and!; congruence.
Qed.

Lemma same_course_refl r : same_course r r.
Proof. by repeat split. Qed.

Lemma update_each_halted_course rs tm delta_time now :
  Forall Fleet.halted rs →
  Forall2 same_course rs (update_each rs tm delta_time now).1.1.
Proof.
  induction 1 as [| r rs Hr Hrs IH]; cbn [update_each]; [constructor |].
  pose proof (RobotMore.update_halted_course r tm delta_time now Hr) as Hcourse.
  destruct (FleetFacts.update_halted r tm delta_time now Hr) as (_ & Htm & Hres).
  destruct (Robot.update r tm delta_time now) as [[r' tm'] res].
  cbn [fst snd] in *. subst tm' res.
  destruct (update_each rs tm delta_time now) as [[rs' tm''] res'].
  cbn [fst snd] in *. by constructor.
Qed.

(** X24: "emergency_stop" has no way out through ticking: in a fleet
    whose robots are all stopped with enough battery, any run of ticks
    returns normally and leaves the traffic manager as it was and every
    robot with the same status, position, destination, path, lane,
    progress and battery. *)
Theorem stopped_fleet_stays_stopped fm ticks :
  Forall Fleet.halted (robots fm) →
  (run_ticks fm ticks).2 = Ok () ∧
  traffic_manager (run_ticks fm ticks).1 = traffic_manager fm ∧
  Forall2 same_course (robots fm) (robots (run_ticks fm ticks).1).
Proof.
  revert fm. induction ticks as [| [delta_time now] ticks IH]; intros fm Hfm.
  - split_and!; [done | done |]. apply Forall_Forall2_diag.
    eapply Forall_impl; [exact Hfm |]. intros; apply same_course_refl.
  - cbn [run_ticks]. unfold update_robots.
    pose proof (update_each_halted_course (robots fm) (traffic_manager fm)
                  delta_time now Hfm) as Hcourse.
    destruct (FleetFacts.update_each_halted (robots fm) (traffic_manager fm)
                delta_time now Hfm) as (Hrs & Htm & Hres).
    destruct (update_each (robots fm) (traffic_manager fm) delta_time now)
      as [[rs tm] res].
    cbn [fst snd] in *. subst tm res.
    destruct (IH (mkFleetManager rs (traffic_manager fm) (selected_robot fm)
                    (next_id fm)) Hrs) as (Hok & Htm' & Hcourse').
    split_and!; [done | done |].
    eapply Forall2_trans; [| exact Hcourse | exact Hcourse'].
    intros ???. apply same_course_trans.
Qed.

(** the theorem at the fleet [stuck], for five more ticks *)
Lemma stopped_fleet_stays_stopped_witness :
  (run_ticks Fleet.stuck (Fleet.ticks 5 3)).2 = Ok ().
Proof.
  apply (stopped_fleet_stays_stopped Fleet.stuck (Fleet.ticks 5 3)).
  assert (Hrs : (λ r, (Robot.status r,
                       Qltb (Robot.battery r)
                            (Robot.min_battery (Robot.config r))))
                  <$> robots Fleet.stuck = [("emergency_stop", false)])
    by (vm_compute; reflexivity).
  destruct (robots Fleet.stuck) as [| r [| r' rs]]; try discriminate Hrs.
  injection Hrs as Hstatus Hbattery.
  constructor; [by split | constructor].
Defined.

End SystemFacts.
